(** * Vimani run controller and plan validator

    A shallow embedding of [app/orchestrator/models.py],
    [app/orchestrator/validation.py], [app/orchestrator/service.py] and of
    the mock collaborators [app/executor/impl_mock.py] and
    [app/planner/impl_mock.py], with the properties of the controller
    stated and proved over it.

    Conventions.
    - Python [set] of strings: [gset string].
    - Python [dict] whose key order is observed: [pydict], an association
      list that keeps the position of the first insertion of a key and the
      value of the last one.
    - The collaborators (planner, executor, archivist) are passed as state
      transformers over an abstract world [W]; the two mailboxes
      ([wait_for_user_message], [wait_for_step_decision]) are FIFO queues.
    - [ExecEvent.ts] (a floating point clock reading) carries no control
      information and is left out. *)

From stdpp Require Import base decidable option list gmap sets strings pretty sorting relations.

Set Default Proof Using "Type".

(** ** JSON-like values *)

#[local] Unset Elimination Schemes.
Inductive Json : Type :=
| JNull
| JBool (b : bool)
| JNum (z : Z)
| JStr (s : string)
| JList (l : list Json)
| JObj (kv : list (string * Json)).
#[local] Set Elimination Schemes.

(** ** Python dictionaries with observable key order *)

Module PyDict.

Definition pydict (V : Type) : Type := list (string * V).

Fixpoint get {V} (k : string) (d : pydict V) : option V :=
  match d with
  | [] => None
  | (k', v) :: d' => if decide (k = k') then Some v else get k d'
  end.

(** [d[k] = v]: an existing key keeps its position. *)
Fixpoint set {V} (k : string) (v : V) (d : pydict V) : pydict V :=
  match d with
  | [] => [(k, v)]
  | (k', v') :: d' =>
      if decide (k = k') then (k, v) :: d' else (k', v') :: set k v d'
  end.

Definition keys {V} (d : pydict V) : list string := d.*1.

(** [d.pop(k, None)] *)
Definition pop {V} (k : string) (d : pydict V) : pydict V :=
  filter (λ kv, kv.1 ≠ k) d.

(** [{key(x): val(x) for x in l}] *)
Definition comprehension {A V} (key : A → string) (val : A → V)
    (l : list A) : pydict V :=
  foldl (λ d x, set (key x) (val x) d) [] l.

End PyDict.

Abbreviation pydict := PyDict.pydict.

(** ** [app/orchestrator/models.py] *)

Inductive RunStatus := SUCCESS | PARTIAL | FAILED | CANCELLED.
Inductive MessageType := TEXT | QUESTION | CHOICE | FORM | STATUS.
Inductive ErrorSource := PLANNER | EXECUTOR | ORCHESTRATOR.
Inductive ErrorSeverity := STEP | RUN.
Inductive StepDecision :=
  RETRY_STEP | SKIP_STEP | SKIP_DEPENDENTS | REPLAN | ABORT_RUN.
Inductive OnFailAction := OF_STOP | OF_SKIP_DEPENDENTS | OF_CONTINUE.

(** The members of [ExecutionEventType] an [ExecEvent] is built with are
    all kept; the controller tests only three of them. *)
Inductive ExecutionEventType :=
| RUN_CREATED | DEBUG | PLANNER_MESSAGE | PLAN_INVALID | PLAN_ACCEPTED
| EXEC_EVENT | NEED_STEP_DECISION | RUN_DONE | RUN_ERROR
| STEP_STARTED | STEP_LOG | STEP_DONE | STEP_FAILED | RUN_SUMMARY.

#[global] Instance RunStatus_eq_dec : EqDecision RunStatus.
Proof. solve_decision. Defined.
#[global] Instance ErrorSource_eq_dec : EqDecision ErrorSource.
Proof. solve_decision. Defined.
#[global] Instance ErrorSeverity_eq_dec : EqDecision ErrorSeverity.
Proof. solve_decision. Defined.
#[global] Instance StepDecision_eq_dec : EqDecision StepDecision.
Proof. solve_decision. Defined.
#[global] Instance ExecutionEventType_eq_dec : EqDecision ExecutionEventType.
Proof. solve_decision. Defined.

(** The enums derive from [str]; [.value] is the member's name. *)
Definition RunStatus_value (s : RunStatus) : string :=
  match s with
  | SUCCESS => "SUCCESS" | PARTIAL => "PARTIAL"
  | FAILED => "FAILED" | CANCELLED => "CANCELLED"
  end.

Definition StepDecision_value (d : StepDecision) : string :=
  match d with
  | RETRY_STEP => "RETRY_STEP" | SKIP_STEP => "SKIP_STEP"
  | SKIP_DEPENDENTS => "SKIP_DEPENDENTS" | REPLAN => "REPLAN"
  | ABORT_RUN => "ABORT_RUN"
  end.

Record Message := {
  msg_role : string;
  msg_type : MessageType;
  msg_text : string;
  msg_fields : list Json;
}.

Record PlanStep := {
  step_id : string;
  op_id : string;
  params : list (string * Json);
  depends_on : list string;
  on_fail : OnFailAction;
}.

Record Plan := {
  plan_id : string;
  plan_tool_key : string;
  objective : string;
  steps : list PlanStep;
}.

Record ValidationError := {
  ve_code : string;
  ve_message : string;
  ve_path : option string;
  ve_step_id : option string;
  ve_op_id : option string;
}.

Record ErrorEnvelope := {
  err_code : string;
  err_message : string;
  err_source : ErrorSource;
  err_step_id : option string;
  err_retryable : bool;
  err_severity : ErrorSeverity;
}.

(** [ExecEvent.output] is a free-form dictionary; the one the controller
    builds itself (the run summary) is kept structured. *)
Inductive EventOutput :=
| OutputJson (j : Json)
| OutputSummary (status : string) (skipped_steps : list string)
    (total_steps : nat).

Record ExecEvent := {
  ev_type : ExecutionEventType;
  ev_step_id : option string;
  ev_message : option string;
  ev_output : option EventOutput;
  ev_error : option ErrorEnvelope;
}.

Record RunResult := {
  res_run_id : string;
  status : RunStatus;
  res_tool_key : string;
  res_intent : string;
  registry_version : option string;
  plan : option Plan;
  execution_trace : list ExecEvent;
  step_results : list Json;
  errors : list ErrorEnvelope;
  pre_state : Json;
  post_state : Json;
  archive_ref : option string;
}.

(** The operation registry, [registries/<tool_key>.json]. *)
Record Operation := {
  reg_op_id : string;
  input_schema : option Json;
}.

Record Registry := {
  version : option string;
  operations : list Operation;
}.

(** ** [app/orchestrator/validation.py] *)

Definition MAX_STEPS : nat := 5.

(** [ValidationError(code=..., message=..., step_id=..., path=..., op_id=...)] *)
Definition _make_error (code message : string) (sid path oid : option string)
    : ValidationError :=
  {| ve_code := code; ve_message := message; ve_path := path;
     ve_step_id := sid; ve_op_id := oid |}.

(** The two colour sets of the cycle detection. *)
Record colors := {
  visiting : gset string;
  visited : gset string;
}.

Definition no_colors : colors := {| visiting := ∅; visited := ∅ |}.

(** [for nxt in adjacency.get(node, []): if dfs(nxt): return True] *)
Fixpoint dfs_each (go : string → colors → option (bool * colors))
    (l : list string) (c : colors) : option (bool * colors) :=
  match l with
  | [] => Some (false, c)
  | nxt :: l' =>
      match go nxt c with
      | None => None
      | Some (true, c') => Some (true, c')
      | Some (false, c') => dfs_each go l' c'
      end
  end.

(** The nested function [dfs] of [validate_plan].  Step identifiers are
    strings here, so the [node is None] test never fires.  The recursion
    of the source is bounded by [fuel]; [None] is an exhausted bound. *)
Fixpoint dfs (fuel : nat) (adjacency : pydict (list string)) (node : string)
    (c : colors) : option (bool * colors) :=
  match fuel with
  | 0 => None
  | S fuel' =>
      if decide (node ∈ visiting c) then Some (true, c)
      else if decide (node ∈ visited c) then Some (false, c)
      else
        let c1 := {| visiting := {[node]} ∪ visiting c;
                     visited := visited c |} in
        match dfs_each (dfs fuel' adjacency)
                (default [] (PyDict.get node adjacency)) c1 with
        | None => None
        | Some (true, c2) => Some (true, c2)
        | Some (false, c2) =>
            Some (false, {| visiting := visiting c2 ∖ {[node]};
                            visited := {[node]} ∪ visited c2 |})
        end
  end.

(** [for node in list(adjacency.keys()): if dfs(node): ...; break]:
    the key at which the loop broke, if any. *)
Fixpoint cycle_scan (fuel : nat) (adjacency : pydict (list string))
    (nodes : list string) (c : colors) : option (option string) :=
  match nodes with
  | [] => Some None
  | node :: nodes' =>
      match dfs fuel adjacency node c with
      | None => None
      | Some (true, _) => Some (Some node)
      | Some (false, c') => cycle_scan fuel adjacency nodes' c'
      end
  end.

Definition adjacency_of (steps : list PlanStep) : pydict (list string) :=
  PyDict.comprehension step_id depends_on steps.

(** A recursion depth no traversal of [adjacency] reaches. *)
Definition dfs_depth (adjacency : pydict (list string)) : nat :=
  S (S (length adjacency)).

Definition cycle_error (node : string) : ValidationError :=
  _make_error "INVALID_DEPENDENCY" "Cycle detected in dependencies"
    (Some node) (Some "depends_on") None.

Definition cycle_errors (steps : list PlanStep) : list ValidationError :=
  let adjacency := adjacency_of steps in
  match cycle_scan (dfs_depth adjacency) adjacency
          (PyDict.keys adjacency) no_colors with
  | Some (Some node) => [cycle_error node]
  | _ => []
  end.

(** The two per-dependency checks of one step. *)
Definition dependency_errors_of (step_ids : gset string) (step : PlanStep)
    : list ValidationError :=
  mjoin ((λ dep,
      (if decide (dep ∈ step_ids) then []
       else [_make_error "INVALID_DEPENDENCY"
               ("Dependency '" +:+ dep +:+ "' not found")
               (Some (step_id step)) (Some "depends_on") None]) ++
      (if decide (dep = step_id step)
       then [_make_error "INVALID_DEPENDENCY" "Step cannot depend on itself"
               (Some (step_id step)) (Some "depends_on") None]
       else [])) <$> depends_on step).

(** What [jsonschema.validate] reports: [exc.message] and the joined
    [exc.path]. *)
Record SchemaViolation := {
  sv_message : string;
  sv_path : string;
}.

(** [jsonschema.validate] against the plan schema
    ([schemas/plan.schema.json]) and against an operation's
    [input_schema].  The library and the schema document are outside the
    sources, so both checks are an interface. *)
Class JsonSchema := {
  (** [jsonschema.validate(instance=plan_dict, schema=PLAN_SCHEMA)] *)
  plan_schema_check : Plan → option SchemaViolation;
  (** [jsonschema.validate(instance=params, schema=op_schema)] *)
  params_schema_check : list (string * Json) → Json → option SchemaViolation;
}.

Section Validation.

Context `{!JsonSchema}.

Definition registry_errors_of (ops : pydict Operation) (step : PlanStep)
    : list ValidationError :=
  match PyDict.get (op_id step) ops with
  | None =>
      [_make_error "UNKNOWN_OPERATION"
         ("Operation '" +:+ op_id step +:+ "' not found in registry")
         (Some (step_id step)) None (Some (op_id step))]
  | Some op =>
      match params_schema_check (params step)
              (default (JObj []) (input_schema op)) with
      | Some exc =>
          [_make_error "INVALID_PARAMS" (sv_message exc)
             (Some (step_id step)) (Some (sv_path exc))
             (Some (op_id step))]
      | None => []
      end
  end.

Definition validate_plan (plan_dict : Plan) (registry : Registry)
    : list ValidationError :=
  let schema_errors :=
    match plan_schema_check plan_dict with
    | Some exc =>
        [_make_error "SCHEMA_INVALID" (sv_message exc) None
           (Some (sv_path exc)) None]
    | None => []
    end in
  let steps := steps plan_dict in
  let limit_errors :=
    if decide (MAX_STEPS < length steps)
    then [_make_error "LIMIT_EXCEEDED"
            ("Plan has " +:+ pretty (length steps) +:+ " steps; max is "
               +:+ pretty MAX_STEPS)
            None (Some "steps") None]
    else [] in
  let ops := PyDict.comprehension reg_op_id id (operations registry) in
  let registry_errors := mjoin (registry_errors_of ops <$> steps) in
  let step_ids : gset string := list_to_set (step_id <$> steps) in
  let dependency_errors :=
    mjoin (dependency_errors_of step_ids <$> steps) in
  schema_errors ++ limit_errors ++ registry_errors ++ dependency_errors
    ++ cycle_errors steps.

End Validation.

(** ** Collaborator interfaces

    [app/planner/interface.py], [app/executor/interface.py] and
    [app/archivist/interface.py].  A collaborator may keep state between
    calls: each method transforms a world [W]. *)

Definition UserContext : Type := pydict Json.

Record PlannerInput := {
  pi_tool_key : string;
  pi_intent : string;
  pi_operation_registry : Registry;
  pi_pre_state : Json;
  pi_conversation : list Message;
  pi_validation_errors : option (list ValidationError);
}.

(** The dictionary [planner.next] returns, by its ["type"]. *)
Inductive PlannerOutput :=
| OutForm (role : option string) (text : string) (fields : list Json)
| OutPlan (p : Plan)
| OutOther (type : string).

(** A call returns or raises. *)
Inductive Reply (A : Type) :=
| Returns (a : A)
| Raises (e : string).
Arguments Returns {A} a.
Arguments Raises {A} e.

Record ArchivePayload := {
  ap_run_id : string;
  ap_tool_key : string;
  ap_intent : string;
  ap_registry_version : option string;
  ap_conversation : list Message;
  ap_plan : option Plan;
  ap_exec_trace : list ExecEvent;
  ap_pre_state : Json;
  ap_post_state : Json;
  ap_status : string;
}.

Class Planner (W : Type) := {
  planner_next : PlannerInput → W → Reply PlannerOutput * W;
}.

(** [execute_plan] is an asynchronous generator; it is taken to yield a
    finite sequence of events.  The two methods are taken to return: the
    controller catches no exception of the executor, and one raised in
    [fetch_state] or while the generator runs leaves [start_run] with no
    result. *)
Class Executor (W : Type) := {
  fetch_state : string → option UserContext → W → Json * W;
  execute_plan :
    string → Plan → option UserContext → option string → W →
    list ExecEvent * W;
}.

(** [store_run] returns a dictionary; the controller keeps its
    ["archive_ref"], if any. *)
Class Archivist (W : Type) := {
  store_run : ArchivePayload → W → Reply (option string) * W;
}.

(** ** What the controller exchanges with its caller *)

(** An item of the user-message mailbox: a [Message], or a dictionary
    that the [Message] constructor accepts, or one it rejects. *)
Inductive UserReply :=
| UserMsg (m : Message)
| UserMalformed (e : string).

(** An item of the step-decision mailbox: a dictionary, of which the
    controller reads three keys, or any other value. *)
Inductive DecisionResponse :=
| RespDict (d_run_id d_step_id d_decision : option string)
| RespOther (v : string).

Inductive DebugMessage :=
| DbgSkeletonOk
| DbgUnexpectedType (type : string)
| DbgFailOnStepId (resolved : option Json)
| DbgArchivistSkipped (e : string).

(** The payloads handed to [send_event]. *)
Inductive Payload :=
| P_RUN_CREATED (rid : string)
| P_DEBUG (rid : string) (message : DebugMessage)
| P_PLANNER_MESSAGE (rid : string) (role text : string) (fields : list Json)
| P_PLAN_INVALID (rid : string) (errs : list ValidationError)
| P_PLAN_ACCEPTED (rid : string) (p : Plan)
| P_EXEC_EVENT (rid : string) (event : ExecEvent)
| P_NEED_STEP_DECISION (rid : string) (sid : option string)
    (error : option ErrorEnvelope).

(** The interaction history of a run, oldest first: every payload sent,
    every collaborator call with what it returned, every mailbox item
    received. *)
Inductive IO :=
| Sent (p : Payload)
| PlannerNext (i : PlannerInput) (output : PlannerOutput)
| FetchState (tk : string) (ctx : option UserContext) (state : Json)
| ExecutePlan (tk : string) (p : Plan) (ctx : option UserContext)
    (fail_on : option string) (events : list ExecEvent)
| StoreRun (payload : ArchivePayload) (r : Reply (option string))
| UserMessageRead (r : UserReply)
| StepDecisionRead (r : DecisionResponse).

Record Env (W : Type) := {
  world : W;
  user_messages : list UserReply;
  step_decisions : list DecisionResponse;
  io : list IO;
}.
Arguments world {W} _.
Arguments user_messages {W} _.
Arguments step_decisions {W} _.
Arguments io {W} _.

(** How a coroutine ends: it returns, it awaits a mailbox that stays
    empty, or it raises.  [Spent] marks an exhausted recursion bound of
    the model; no run reaches it. *)
Inductive Outcome (A : Type) :=
| Done (a : A)
| Blocked
| Raised (e : string)
| Spent.
Arguments Done {A} a.
Arguments Blocked {A}.
Arguments Raised {A} e.
Arguments Spent {A}.

Definition M (W A : Type) : Type := Env W → Outcome (A * Env W).

Definition ret {W A} (a : A) : M W A := λ env, Done (a, env).

Definition bind {W A B} (m : M W A) (k : A → M W B) : M W B :=
  λ env,
    match m env with
    | Done (a, env') => k a env'
    | Blocked => Blocked
    | Raised e => Raised e
    | Spent => Spent
    end.

Notation "'do' x <- m ; k" := (bind m (λ x, k))
  (at level 10, x pattern, m at level 100, k at level 200,
   format "'[v' 'do'  x  <-  m ; '/' k ']'").
Notation "m ;; k" := (bind m (λ _, k))
  (at level 100, k at level 200, right associativity).

Definition spent {W A} : M W A := λ _, Spent.
Definition raise {W A} (e : string) : M W A := λ _, Raised e.

Definition record {W} (e : IO) (env : Env W) : Env W :=
  {| world := world env; user_messages := user_messages env;
     step_decisions := step_decisions env; io := io env ++ [e] |}.

Definition with_world {W} (w : W) (env : Env W) : Env W :=
  {| world := w; user_messages := user_messages env;
     step_decisions := step_decisions env; io := io env |}.

(** [await self._emit(send_event, payload)]: the callback [send_event]
    is taken to return; the controller catches no exception of it. *)
Definition _emit {W} (payload : Payload) : M W () :=
  λ env, Done ((), record (Sent payload) env).

Fixpoint emit_all {W} (payloads : list Payload) : M W () :=
  match payloads with
  | [] => ret ()
  | p :: ps => _emit p;; emit_all ps
  end.

(** [await wait_for_user_message()] followed by the conversion to a
    [Message] *)
Definition wait_for_user_message {W} : M W Message :=
  λ env,
    match user_messages env with
    | [] => Blocked
    | r :: rest =>
        let env' :=
          record (UserMessageRead r)
            {| world := world env; user_messages := rest;
               step_decisions := step_decisions env; io := io env |} in
        match r with
        | UserMsg m => Done (m, env')
        | UserMalformed e => Raised e
        end
    end.

(** [await wait_for_step_decision()] *)
Definition wait_for_step_decision {W} : M W DecisionResponse :=
  λ env,
    match step_decisions env with
    | [] => Blocked
    | r :: rest =>
        Done (r, record (StepDecisionRead r)
                   {| world := world env; user_messages := user_messages env;
                      step_decisions := rest; io := io env |})
    end.

(** ** [app/orchestrator/service.py] *)

(** The local variables of [start_run] that live across the execution
    loops. *)
Record Ctl := {
  conversation : list Message;
  plan_dict : option Plan;
  plan_model : Plan;
  skipped_steps : gset string;
  exec_trace : list ExecEvent;
  aborted : bool;
  need_replan : bool;
  fail_on_step_id : option Json;
}.

Definition set_conversation (v : list Message) (c : Ctl) : Ctl :=
  {| conversation := v; plan_dict := plan_dict c;
     plan_model := plan_model c; skipped_steps := skipped_steps c;
     exec_trace := exec_trace c; aborted := aborted c;
     need_replan := need_replan c; fail_on_step_id := fail_on_step_id c |}.

Definition set_plan_dict (v : option Plan) (c : Ctl) : Ctl :=
  {| conversation := conversation c; plan_dict := v;
     plan_model := plan_model c; skipped_steps := skipped_steps c;
     exec_trace := exec_trace c; aborted := aborted c;
     need_replan := need_replan c; fail_on_step_id := fail_on_step_id c |}.

Definition set_plan_model (v : Plan) (c : Ctl) : Ctl :=
  {| conversation := conversation c; plan_dict := plan_dict c;
     plan_model := v; skipped_steps := skipped_steps c;
     exec_trace := exec_trace c; aborted := aborted c;
     need_replan := need_replan c; fail_on_step_id := fail_on_step_id c |}.

Definition set_skipped_steps (v : gset string) (c : Ctl) : Ctl :=
  {| conversation := conversation c; plan_dict := plan_dict c;
     plan_model := plan_model c; skipped_steps := v;
     exec_trace := exec_trace c; aborted := aborted c;
     need_replan := need_replan c; fail_on_step_id := fail_on_step_id c |}.

Definition set_exec_trace (v : list ExecEvent) (c : Ctl) : Ctl :=
  {| conversation := conversation c; plan_dict := plan_dict c;
     plan_model := plan_model c; skipped_steps := skipped_steps c;
     exec_trace := v; aborted := aborted c;
     need_replan := need_replan c; fail_on_step_id := fail_on_step_id c |}.

Definition set_aborted (v : bool) (c : Ctl) : Ctl :=
  {| conversation := conversation c; plan_dict := plan_dict c;
     plan_model := plan_model c; skipped_steps := skipped_steps c;
     exec_trace := exec_trace c; aborted := v;
     need_replan := need_replan c; fail_on_step_id := fail_on_step_id c |}.

Definition set_need_replan (v : bool) (c : Ctl) : Ctl :=
  {| conversation := conversation c; plan_dict := plan_dict c;
     plan_model := plan_model c; skipped_steps := skipped_steps c;
     exec_trace := exec_trace c; aborted := aborted c;
     need_replan := v; fail_on_step_id := fail_on_step_id c |}.

Definition set_fail_on_step_id (v : option Json) (c : Ctl) : Ctl :=
  {| conversation := conversation c; plan_dict := plan_dict c;
     plan_model := plan_model c; skipped_steps := skipped_steps c;
     exec_trace := exec_trace c; aborted := aborted c;
     need_replan := need_replan c; fail_on_step_id := v |}.

(** [fail_on_step_id == step_id], for a value read from the user context *)
Definition names_step (fail_on : option Json) (sid : string) : bool :=
  match fail_on with
  | Some (JStr s) => bool_decide (s = sid)
  | _ => false
  end.

(** [if fail_on_step_id == sid: fail_on_step_id = None] *)
Definition clear_fail_on (sid : string) (c : Ctl) : Ctl :=
  if names_step (fail_on_step_id c) sid then set_fail_on_step_id None c
  else c.

(** [decision == StepDecision.X], for a decision read from the mailbox *)
Definition decision_is (d : StepDecision) (decision : option string) : bool :=
  bool_decide (decision = Some (StepDecision_value d)).

(** The body of [async for event in self.executor.execute_plan(...)] over
    the events yielded: the events re-emitted and appended to the trace,
    [failure_event] and [step_done_event]. *)
Fixpoint consume (sid : string) (events : list ExecEvent)
    (step_done_event : bool) : list ExecEvent * option ExecEvent * bool :=
  match events with
  | [] => ([], None, step_done_event)
  | event :: rest =>
      if decide (ev_type event = RUN_SUMMARY) then
        consume sid rest step_done_event
      else if bool_decide (ev_type event = STEP_FAILED
                           ∧ ev_step_id event = Some sid) then
        ([event], Some event, step_done_event)
      else
        let '(kept, failure_event, done) :=
          consume sid rest
            (if bool_decide (ev_type event = STEP_DONE
                             ∧ ev_step_id event = Some sid)
             then true else step_done_event) in
        (event :: kept, failure_event, done)
  end.

(** The order of [str] values. *)
Definition string_le (a b : string) : Prop := String.leb a b = true.

#[global] Instance string_le_dec a b : Decision (string_le a b).
Proof. unfold string_le. apply _. Defined.

(** [sorted(list(skipped_steps))] *)
Definition sorted_steps (s : gset string) : list string :=
  merge_sort string_le (elements s).

(** Line 391: the terminal status of a run whose walk ended. *)
Definition final_status_of (c : Ctl) : RunStatus :=
  if aborted c then CANCELLED
  else if bool_decide (skipped_steps c ≠ ∅)
          || existsb (λ evt, bool_decide (ev_type evt = STEP_FAILED))
               (exec_trace c)
  then PARTIAL
  else SUCCESS.

Definition summary_event_of (c : Ctl) : ExecEvent :=
  {| ev_type := RUN_SUMMARY;
     ev_step_id := None;
     ev_message :=
       Some ("Run completed with status "
               +:+ RunStatus_value (final_status_of c));
     ev_output :=
       Some (OutputSummary (RunStatus_value (final_status_of c))
               (sorted_steps (skipped_steps c))
               (length (steps (plan_model c))));
     ev_error := None |}.

(** Lines 193-203: the envelope reported for a validation error. *)
Definition envelope_of (err : ValidationError) : ErrorEnvelope :=
  {| err_code := ve_code err;
     err_message := ve_message err;
     err_source := PLANNER;
     err_step_id := ve_step_id err;
     err_retryable := false;
     err_severity :=
       match ve_step_id err with
       | Some s => if decide (s = "") then RUN else STEP
       | None => RUN
       end |}.

Definition planning_timeout : ErrorEnvelope :=
  {| err_code := "PLANNING_TIMEOUT";
     err_message := "Planning loop ended without PLAN_FINAL";
     err_source := PLANNER;
     err_step_id := None;
     err_retryable := false;
     err_severity := RUN |}.

Definition max_correction_retries : nat := 3.

Section Controller.

Context {W : Type}.
Context `{!JsonSchema, !Planner W, !Executor W, !Archivist W}.

(** [run_id] is the UUID drawn at line 61 and [registry] the document
    loaded at line 63. *)
Variables (run_id : string) (registry : Registry).
Variables (tool_key intent : string) (user_context : option UserContext).

Definition call_planner (i : PlannerInput) : M W PlannerOutput :=
  λ env,
    let '(r, w) := planner_next i (world env) in
    match r with
    | Returns output =>
        Done (output, record (PlannerNext i output) (with_world w env))
    | Raises e => Raised e
    end.

Definition call_fetch_state : M W Json :=
  λ env,
    let '(state, w) := fetch_state tool_key user_context (world env) in
    Done (state,
          record (FetchState tool_key user_context state) (with_world w env)).

Definition call_execute_plan (p : Plan) (ctx : option UserContext)
    (fail_on : option string) : M W (list ExecEvent) :=
  λ env,
    let '(events, w) := execute_plan tool_key p ctx fail_on (world env) in
    Done (events,
          record (ExecutePlan tool_key p ctx fail_on events)
            (with_world w env)).

Definition call_store_run (payload : ArchivePayload)
    : M W (Reply (option string)) :=
  λ env,
    let '(r, w) := store_run payload (world env) in
    Done (r, record (StoreRun payload r) (with_world w env)).

Definition planner_input (pre : Json) (conv : list Message)
    (errs : option (list ValidationError)) : PlannerInput :=
  {| pi_tool_key := tool_key; pi_intent := intent;
     pi_operation_registry := registry; pi_pre_state := pre;
     pi_conversation := conv; pi_validation_errors := errs |}.

(** The form branch shared by the three planner loops: send the form,
    await one user message, append it to the conversation. *)
Definition ask_user (role : option string) (text : string)
    (fields : list Json) (conv : list Message) : M W (list Message) :=
  _emit (P_PLANNER_MESSAGE run_id (default "assistant" role) text fields);;
  do user_message <- wait_for_user_message;
  ret (conv ++ [user_message]).

(** [for turn in range(10)] at lines 74-120 and at lines 345-375: the
    plan obtained, if any, and the conversation.  Only the first loop
    reports an unexpected output ([report_unexpected]). *)
Fixpoint planning_loop (report_unexpected : bool) (turns : nat)
    (pre : Json) (conv : list Message)
    : M W (option Plan * list Message) :=
  match turns with
  | 0 => ret (None, conv)
  | S turns' =>
      do output <- call_planner (planner_input pre conv None);
      match output with
      | OutForm role text fields =>
          do conv' <- ask_user role text fields conv;
          planning_loop report_unexpected turns' pre conv'
      | OutPlan p => ret (Some p, conv)
      | OutOther type =>
          (if report_unexpected
           then _emit (P_DEBUG run_id (DbgUnexpectedType type))
           else ret ());;
          planning_loop report_unexpected turns' pre conv
      end
  end.

(** [while validation_errors and correction_retries < max_correction_retries]
    at lines 144-184: the plan, its validation errors, the number of
    corrected plans validated and the conversation at the exit. *)
Fixpoint correction_loop (fuel : nat) (pre : Json) (p : Plan)
    (validation_errors : list ValidationError) (correction_retries : nat)
    (conv : list Message)
    : M W (Plan * list ValidationError * nat * list Message) :=
  match fuel with
  | 0 => spent
  | S fuel' =>
      if bool_decide (validation_errors ≠ [])
         && bool_decide (correction_retries < max_correction_retries)
      then
        _emit (P_PLAN_INVALID run_id validation_errors);;
        do output <-
          call_planner (planner_input pre conv (Some validation_errors));
        match output with
        | OutForm role text fields =>
            do conv' <- ask_user role text fields conv;
            correction_loop fuel' pre p validation_errors
              correction_retries conv'
        | OutPlan p' =>
            correction_loop fuel' pre p' (validate_plan p' registry)
              (S correction_retries) conv
        | OutOther _ =>
            ret (p, validation_errors, correction_retries, conv)
        end
      else ret (p, validation_errors, correction_retries, conv)
  end.

(** Every turn of the correction loop that goes on takes a user message
    or counts a corrected plan. *)
Definition correct_plan (pre : Json) (p : Plan)
    (validation_errors : list ValidationError) (conv : list Message)
    : M W (Plan * list ValidationError * nat * list Message) :=
  λ env,
    correction_loop (S (length (user_messages env) + max_correction_retries))
      pre p validation_errors 0 conv env.

(** Lines 285-294: wait for the decision on the failed step [sid]. *)
Fixpoint decision_loop (fuel : nat) (sid : string) : M W (option string) :=
  match fuel with
  | 0 => spent
  | S fuel' =>
      do decision_response <- wait_for_step_decision;
      match decision_response with
      | RespDict d_run_id d_step_id d_decision =>
          if bool_decide (d_run_id = Some run_id ∧ d_step_id = Some sid)
          then ret d_decision
          else decision_loop fuel' sid
      | RespOther v => ret (Some v)
      end
  end.

Definition await_decision (sid : string) : M W (option string) :=
  λ env, decision_loop (S (length (step_decisions env))) sid env.

(** Lines 308-311: the failed step and the steps that list it in
    [depends_on]. *)
Definition skip_with_dependents (sid : string) (c : Ctl) : gset string :=
  foldl (λ acc step,
           if decide (sid ∈ depends_on step)
           then {[step_id step]} ∪ acc else acc)
    ({[sid]} ∪ skipped_steps c) (steps (plan_model c)).

Definition failure_msg (sid : string) (error : option ErrorEnvelope)
    : Message :=
  {| msg_role := "assistant"; msg_type := TEXT;
     msg_text :=
       "Step " +:+ sid +:+ " failed: "
         +:+ from_option err_message "Unknown error" error
         +:+ ". Please provide a new plan.";
     msg_fields := [] |}.

(** Lines 243-325: the attempts at one step.  Returns the controller
    state and [step_completed]. *)
Fixpoint exec_attempts (fuel : nat) (current_step : PlanStep)
    (retry_without_fail : bool) (c : Ctl) : M W (Ctl * bool) :=
  match fuel with
  | 0 => spent
  | S fuel' =>
      let sid := step_id current_step in
      let context_to_use :=
        match user_context with
        | Some ((_ :: _) as ctx) =>
            if retry_without_fail
            then Some (PyDict.pop "fail_on_step_id" ctx)
            else user_context
        | _ => user_context
        end in
      let single_plan :=
        {| plan_id := plan_id (plan_model c) +:+ "_step_" +:+ sid;
           plan_tool_key := tool_key;
           objective := "Execute step " +:+ sid;
           steps := [current_step] |} in
      let fail_target :=
        if retry_without_fail then None
        else if names_step (fail_on_step_id c) sid then Some sid
        else None in
      do events <- call_execute_plan single_plan context_to_use fail_target;
      let '(kept, failure_event, step_done_event) :=
        consume sid events false in
      emit_all (P_EXEC_EVENT run_id <$> kept);;
      let c := set_exec_trace (exec_trace c ++ kept) c in
      match failure_event with
      | None => ret (c, step_done_event)
      | Some failure_event =>
          _emit (P_NEED_STEP_DECISION run_id (Some sid)
                   (ev_error failure_event));;
          do decision <- await_decision sid;
          if decision_is ABORT_RUN decision then
            ret (set_aborted true c, false)
          else if decision_is RETRY_STEP decision then
            exec_attempts fuel' current_step true c
          else if decision_is SKIP_STEP decision then
            ret (clear_fail_on sid
                   (set_skipped_steps ({[sid]} ∪ skipped_steps c) c),
                 false)
          else if decision_is SKIP_DEPENDENTS decision then
            ret (clear_fail_on sid
                   (set_skipped_steps (skip_with_dependents sid c) c),
                 false)
          else if decision_is REPLAN decision then
            ret (set_need_replan true
                   (set_plan_dict None
                      (set_conversation
                         (conversation c
                            ++ [failure_msg sid (ev_error failure_event)])
                         c)),
                 false)
          else ret (c, false)
      end
  end.

(** Every further attempt follows a [RETRY_STEP] read from the decision
    mailbox. *)
Definition run_step (current_step : PlanStep) (c : Ctl) : M W (Ctl * bool) :=
  λ env,
    exec_attempts (S (length (step_decisions env))) current_step false c env.

(** Lines 226-339: [while step_index < len(plan_model.steps)], over the
    steps from [step_index] on. *)
Fixpoint walk (remaining : list PlanStep) (c : Ctl) : M W Ctl :=
  match remaining with
  | [] => ret c
  | current_step :: rest =>
      let sid := step_id current_step in
      if aborted c then ret c
      else if decide (sid ∈ skipped_steps c) then walk rest c
      else if existsb (λ dep, bool_decide (dep ∈ skipped_steps c))
                (depends_on current_step)
      then walk rest (set_skipped_steps ({[sid]} ∪ skipped_steps c) c)
      else
        do (c, step_completed) <- run_step current_step c;
        if aborted c || need_replan c then ret c
        else if decide (sid ∈ skipped_steps c) then walk rest c
        else if step_completed then walk rest (clear_fail_on sid c)
        else walk rest c
  end.

(** Lines 222-387: the outer [while True]. *)
Fixpoint run_attempts (fuel : nat) (pre : Json) (c : Ctl) : M W Ctl :=
  match fuel with
  | 0 => spent
  | S fuel' =>
      let c := set_need_replan false c in
      do c <- walk (steps (plan_model c)) c;
      if aborted c then ret c
      else if need_replan c then
        do (new_plan, conv) <- planning_loop false 10 pre (conversation c);
        let c := set_conversation conv c in
        match new_plan with
        | Some p =>
            let c := set_plan_dict (Some p) c in
            match validate_plan p registry with
            | [] =>
                _emit (P_PLAN_ACCEPTED run_id p);;
                run_attempts fuel' pre
                  (set_exec_trace []
                     (set_skipped_steps ∅ (set_plan_model p c)))
            | _ :: _ => ret (set_aborted true c)
            end
        | None => ret (set_aborted true c)
        end
      else ret c
  end.

(** Every further attempt follows a [REPLAN] read from the decision
    mailbox. *)
Definition execute (pre : Json) (c : Ctl) : M W Ctl :=
  λ env, run_attempts (S (length (step_decisions env))) pre c env.

Definition failed_result (pre : Json) (errs : list ErrorEnvelope)
    : RunResult :=
  {| res_run_id := run_id; status := FAILED; res_tool_key := tool_key;
     res_intent := intent; registry_version := None; plan := None;
     execution_trace := []; step_results := []; errors := errs;
     pre_state := pre; post_state := JObj []; archive_ref := None |}.

(** Lines 61-184: the pre-run snapshot, the planning loop and the
    correction loop.  Returns the snapshot and, when the planner gave a
    plan, the state at the exit of the correction loop. *)
Definition plan_phase
    : M W (Json * option (Plan * list ValidationError * nat * list Message))
    :=
  do pre <- call_fetch_state;
  _emit (P_RUN_CREATED run_id);;
  _emit (P_DEBUG run_id DbgSkeletonOk);;
  do (first_plan, conv) <- planning_loop true 10 pre [];
  match first_plan with
  | None => ret (pre, None)
  | Some p =>
      do corrected <- correct_plan pre p (validate_plan p registry) conv;
      ret (pre, Some corrected)
  end.

(** Lines 61-387: the run up to the end of the step walk.  Either the
    run failed before a plan was accepted, or the walk ended in some
    controller state. *)
Definition run_to_walk_end : M W (Json * (RunResult + Ctl)) :=
  do (pre, planned) <- plan_phase;
  match planned with
  | None => ret (pre, inl (failed_result pre [planning_timeout]))
  | Some (p, validation_errors, _, conv) =>
      match validation_errors with
      | _ :: _ =>
          ret (pre, inl (failed_result pre (envelope_of <$> validation_errors)))
      | [] =>
          _emit (P_PLAN_ACCEPTED run_id p);;
          let fail_on :=
            PyDict.get "fail_on_step_id" (default [] user_context) in
          _emit (P_DEBUG run_id (DbgFailOnStepId fail_on));;
          do c <- execute pre
                    {| conversation := conv; plan_dict := Some p;
                       plan_model := p; skipped_steps := ∅;
                       exec_trace := []; aborted := false;
                       need_replan := false; fail_on_step_id := fail_on |};
          ret (pre, inr c)
      end
  end.

(** Lines 389-447. *)
Definition finalize (pre : Json) (c : Ctl) : M W RunResult :=
  do post <- call_fetch_state;
  let final_status := final_status_of c in
  let summary_event := summary_event_of c in
  _emit (P_EXEC_EVENT run_id summary_event);;
  let trace := exec_trace c ++ [summary_event] in
  let archive_payload :=
    {| ap_run_id := run_id; ap_tool_key := tool_key; ap_intent := intent;
       ap_registry_version := version registry;
       ap_conversation := conversation c; ap_plan := plan_dict c;
       ap_exec_trace := trace; ap_pre_state := pre; ap_post_state := post;
       ap_status := RunStatus_value final_status |} in
  do archive_result <- call_store_run archive_payload;
  do ref <-
    match archive_result with
    | Returns ref => ret ref
    | Raises e => _emit (P_DEBUG run_id (DbgArchivistSkipped e));; ret None
    end;
  ret {| res_run_id := run_id; status := final_status;
         res_tool_key := tool_key; res_intent := intent;
         registry_version := version registry;
         plan := Some (plan_model c); execution_trace := trace;
         step_results := []; errors := []; pre_state := pre;
         post_state := post; archive_ref := ref |}.

Definition start_run : M W RunResult :=
  do (pre, r) <- run_to_walk_end;
  match r with
  | inl failed => ret failed
  | inr c => finalize pre c
  end.

End Controller.

(** ** The dependency graph of a plan *)

(** [edge adjacency a b]: [b] is listed in [adjacency[a]]. *)
Definition edge (adjacency : pydict (list string)) (a b : string) : Prop :=
  ∃ l, PyDict.get a adjacency = Some l ∧ b ∈ l.

Definition on_cycle (adjacency : pydict (list string)) (n : string) : Prop :=
  tc (edge adjacency) n n.

Definition has_cycle (adjacency : pydict (list string)) : Prop :=
  ∃ n, on_cycle adjacency n.

Definition reaches_cycle (adjacency : pydict (list string)) (n : string)
    : Prop :=
  ∃ m, rtc (edge adjacency) n m ∧ on_cycle adjacency m.

(** [node] is the first key, in the order of the dictionary, from which
    a cycle can be reached. *)
Definition first_key_reaching_cycle (adjacency : pydict (list string))
    (node : string) : Prop :=
  ∃ before after,
    PyDict.keys adjacency = before ++ node :: after
    ∧ reaches_cycle adjacency node
    ∧ ∀ k, k ∈ before → ¬ reaches_cycle adjacency k.

(** The error of the cycle rule, among those of the validator. *)
Definition is_cycle_error (e : ValidationError) : bool :=
  bool_decide (ve_code e = "INVALID_DEPENDENCY"
               ∧ ve_message e = "Cycle detected in dependencies").

(** The traversal of [dfs], reporting where the cycle is closed: the node
    whose dependencies are being scanned and the dependency found in
    [visiting].  It follows [dfs] and [dfs_each] case by case. *)
Inductive closing := Closed (scanned found : string).

Fixpoint closing_each
    (go : string → colors → option (option closing * colors))
    (l : list string) (c : colors) : option (option closing * colors) :=
  match l with
  | [] => Some (None, c)
  | nxt :: l' =>
      match go nxt c with
      | None => None
      | Some (Some e, c') => Some (Some e, c')
      | Some (None, c') => closing_each go l' c'
      end
  end.

Fixpoint closing_dfs (fuel : nat) (adjacency : pydict (list string))
    (parent : string) (node : string) (c : colors)
    : option (option closing * colors) :=
  match fuel with
  | 0 => None
  | S fuel' =>
      if decide (node ∈ visiting c) then Some (Some (Closed parent node), c)
      else if decide (node ∈ visited c) then Some (None, c)
      else
        let c1 := {| visiting := {[node]} ∪ visiting c;
                     visited := visited c |} in
        match closing_each (closing_dfs fuel' adjacency node)
                (default [] (PyDict.get node adjacency)) c1 with
        | None => None
        | Some (Some e, c2) => Some (Some e, c2)
        | Some (None, c2) =>
            Some (None, {| visiting := visiting c2 ∖ {[node]};
                           visited := {[node]} ∪ visited c2 |})
        end
  end.

Fixpoint closing_scan (fuel : nat) (adjacency : pydict (list string))
    (nodes : list string) (c : colors) : option (option closing) :=
  match nodes with
  | [] => Some None
  | node :: nodes' =>
      match closing_dfs fuel adjacency node node c with
      | None => None
      | Some (Some e, _) => Some (Some e)
      | Some (None, c') => closing_scan fuel adjacency nodes' c'
      end
  end.

(** The edge that closes the first cycle the validator finds. *)
Definition closing_edge (steps : list PlanStep) : option closing :=
  let adjacency := adjacency_of steps in
  default None
    (closing_scan (dfs_depth adjacency) adjacency
       (PyDict.keys adjacency) no_colors).

(** ** Reading a run's history

    What the statements below say about a run is read off its history. *)

(** Whether response [r] is taken as the decision on the failed step
    [sid] of run [run_id], and the decision it carries. *)
Definition accepts (run_id sid : string) (r : DecisionResponse)
    : option (option string) :=
  match r with
  | RespDict d_run_id d_step_id d_decision =>
      if bool_decide (d_run_id = Some run_id ∧ d_step_id = Some sid)
      then Some d_decision else None
  | RespOther v => Some (Some v)
  end.

Record Reading := {
  (** the failed step whose decision is awaited *)
  awaited : option string;
  (** the decisions taken, oldest first: the failed step and the decision *)
  taken : list (string * option string);
  (** the execution events sent since the last [PLAN_ACCEPTED] *)
  shown : list ExecEvent;
  (** the plans the planner returned in answer to validation errors *)
  corrected_plans : nat;
}.

Definition nothing_read : Reading :=
  {| awaited := None; taken := []; shown := []; corrected_plans := 0 |}.

Definition read_entry (run_id : string) (s : Reading) (e : IO) : Reading :=
  match e with
  | Sent (P_PLAN_ACCEPTED _ _) =>
      {| awaited := awaited s; taken := taken s; shown := [];
         corrected_plans := corrected_plans s |}
  | Sent (P_EXEC_EVENT _ event) =>
      {| awaited := awaited s; taken := taken s; shown := shown s ++ [event];
         corrected_plans := corrected_plans s |}
  | Sent (P_NEED_STEP_DECISION _ sid _) =>
      {| awaited := sid; taken := taken s; shown := shown s;
         corrected_plans := corrected_plans s |}
  | StepDecisionRead r =>
      match awaited s with
      | Some sid =>
          match accepts run_id sid r with
          | Some d =>
              {| awaited := None; taken := taken s ++ [(sid, d)];
                 shown := shown s; corrected_plans := corrected_plans s |}
          | None => s
          end
      | None => s
      end
  | PlannerNext i (OutPlan _) =>
      match pi_validation_errors i with
      | Some _ =>
          {| awaited := awaited s; taken := taken s; shown := shown s;
             corrected_plans := S (corrected_plans s) |}
      | None => s
      end
  | _ => s
  end.

Definition read (run_id : string) (history : list IO) : Reading :=
  foldl (read_entry run_id) nothing_read history.

(** An [ABORT_RUN] decision was taken on some failed step. *)
Definition abort_decided (run_id : string) (history : list IO) : Prop :=
  ∃ sid, (sid, Some (StepDecision_value ABORT_RUN)) ∈ taken (read run_id history).

(** ** Plans whose declared order follows the dependencies *)

Definition step_ids (steps : list PlanStep) : list string := step_id <$> steps.

(** Every dependency of a step is declared before the step: [seen] are
    the identifiers declared so far. *)
Fixpoint declared_in_order (seen : list string) (steps : list PlanStep)
    : bool :=
  match steps with
  | [] => true
  | s :: rest =>
      forallb (λ d, bool_decide (d ∈ seen)) (depends_on s)
      && declared_in_order (seen ++ [step_id s]) rest
  end.

Definition dependencies_first (steps : list PlanStep) : Prop :=
  declared_in_order [] steps = true.

Definition distinct_ids (steps : list PlanStep) : Prop :=
  bool_decide (NoDup (step_ids steps)) = true.

(** [affected steps x y]: [y] is [x] or is reachable from [x] through the
    [depends_on] edges of [steps], taken from a dependency to the step that
    lists it. *)
Inductive affected (steps : list PlanStep) (x : string) : string → Prop :=
| affected_self : affected steps x x
| affected_dependent s d :
    s ∈ steps → d ∈ depends_on s → affected steps x d →
    affected steps x (step_id s).

Section PlannerSilence.

Context {W : Type} `{!Planner W}.

(** The planner gives no plan for [turns] consecutive turns: each turn
    it asks for information, which the user supplies, or answers with
    something that is neither a form nor a plan. *)
Fixpoint no_plan_for (turns : nat) (input : list Message → PlannerInput)
    (conv : list Message) (w : W) (mailbox : list UserReply) : Prop :=
  match turns with
  | 0 => True
  | S turns' =>
      match planner_next (input conv) w with
      | (Returns (OutForm _ _ _), w') =>
          match mailbox with
          | UserMsg m :: mailbox' =>
              no_plan_for turns' input (conv ++ [m]) w' mailbox'
          | _ => False
          end
      | (Returns (OutOther _), w') => no_plan_for turns' input conv w' mailbox
      | (Returns (OutPlan _), _) => False
      | (Raises _, _) => False
      end
  end.

End PlannerSilence.

(** ** The mock collaborators *)

Module Mock.

(** [MockExecutor.fetch_state] *)
Definition state : Json :=
  JObj [("spaces", JList []); ("folders", JList []); ("lists", JList [])].

Definition mock_failure (sid : string) : ErrorEnvelope :=
  {| err_code := "MOCK_FAILURE";
     err_message := "Mock failure for testing";
     err_source := EXECUTOR;
     err_step_id := Some sid;
     err_retryable := true;
     err_severity := STEP |}.

Definition started (step : PlanStep) : ExecEvent :=
  {| ev_type := STEP_STARTED; ev_step_id := Some (step_id step);
     ev_message := None; ev_output := None; ev_error := None |}.

Definition logged (step : PlanStep) : ExecEvent :=
  {| ev_type := STEP_LOG; ev_step_id := Some (step_id step);
     ev_message := Some ("Executing " +:+ op_id step);
     ev_output := None; ev_error := None |}.

Definition failed (step : PlanStep) : ExecEvent :=
  {| ev_type := STEP_FAILED; ev_step_id := Some (step_id step);
     ev_message := None; ev_output := None;
     ev_error := Some (mock_failure (step_id step)) |}.

Definition done (step : PlanStep) : ExecEvent :=
  {| ev_type := STEP_DONE; ev_step_id := Some (step_id step);
     ev_message := None;
     ev_output :=
       Some (OutputJson
               (JObj [("ok", JBool true); ("step_id", JStr (step_id step))]));
     ev_error := None |}.

Definition summary : ExecEvent :=
  {| ev_type := RUN_SUMMARY; ev_step_id := None; ev_message := None;
     ev_output := None; ev_error := None |}.

(** [MockExecutor.execute_plan]: the events yielded for [steps]. *)
Fixpoint events (steps : list PlanStep) (fail_on_step_id : option string)
    : list ExecEvent :=
  match steps with
  | [] => [summary]
  | step :: rest =>
      started step :: logged step ::
        (if decide (fail_on_step_id = Some (step_id step))
         then [failed step]
         else done step :: events rest fail_on_step_id)
  end.

Definition executor {W} : Executor W :=
  {| fetch_state _ _ w := (state, w);
     execute_plan _ p _ fail_on_step_id w :=
       (events (steps p) fail_on_step_id, w) |}.

(** [MockPlanner._build_intake_form(...).fields] *)
Definition intake_fields : list Json :=
  [ JObj [("key", JStr "team_size"); ("label", JStr "Team size");
          ("type", JStr "number"); ("required", JBool true);
          ("placeholder", JStr "e.g. 5"); ("options", JList [])];
    JObj [("key", JStr "priority"); ("label", JStr "Overall priority");
          ("type", JStr "select"); ("required", JBool true);
          ("placeholder", JNull);
          ("options",
           JList [JObj [("id", JStr "low"); ("label", JStr "Low")];
                  JObj [("id", JStr "medium"); ("label", JStr "Medium")];
                  JObj [("id", JStr "high"); ("label", JStr "High")]])];
    JObj [("key", JStr "notes");
          ("label", JStr "Additional context (optional)");
          ("type", JStr "textarea"); ("required", JBool false);
          ("placeholder",
           JStr "Any other details that would help planning...");
          ("options", JList [])] ].

Definition step (sid oid name : string) (deps : list string) : PlanStep :=
  {| step_id := sid; op_id := oid; params := [("name", JStr name)];
     depends_on := deps; on_fail := OF_SKIP_DEPENDENTS |}.

(** [MockPlanner._build_plan] *)
Definition build_plan (input : PlannerInput) : Plan :=
  {| plan_id := "mock-plan";
     plan_tool_key := pi_tool_key input;
     objective := pi_intent input;
     steps :=
       [ step "S1" "clickup.space.create" "Main Space" [];
         step "S2" "clickup.folder.create" "Primary Folder" ["S1"];
         step "S3" "clickup.list.create" "Initial List" ["S2"] ] |}.

(** [MockPlanner.next] *)
Definition planner {W} : Planner W :=
  {| planner_next input w :=
       if existsb (λ msg, bool_decide (msg_role msg = "user"))
            (pi_conversation input)
       then (Returns (OutPlan (build_plan input)), w)
       else
         (Returns
            (OutForm (Some "assistant")
               "I need a bit more information to set this up correctly."
               intake_fields), w) |}.

(** [JsonlArchivist.store_run]: the world is the archive file, a record
    per line; the reference is the run identifier, which [start_run]
    always supplies. *)
Definition archivist : Archivist (list ArchivePayload) :=
  {| store_run payload file :=
       (Returns (Some (ap_run_id payload)), file ++ [payload]) |}.

(** A planner that answers every call with the same plan. *)
Definition fixed_planner {W} (p : Plan) : Planner W :=
  {| planner_next _ w := (Returns (OutPlan p), w) |}.

(** [jsonschema.validate] for documents that put no constraint. *)
Definition lenient : JsonSchema :=
  {| plan_schema_check _ := None; params_schema_check _ _ := None |}.

(** A registry that lists the operations of [build_plan]. *)
Definition registry : Registry :=
  {| version := Some "1";
     operations :=
       [ {| reg_op_id := "clickup.space.create"; input_schema := None |};
         {| reg_op_id := "clickup.folder.create"; input_schema := None |};
         {| reg_op_id := "clickup.list.create"; input_schema := None |} ] |}.

Definition user_reply : UserReply :=
  UserMsg {| msg_role := "user"; msg_type := TEXT;
             msg_text := "team_size=8"; msg_fields := [] |}.

(** The start of a run on the mock collaborators: an empty archive, the
    given mailboxes, no history. *)
Definition env (replies : list UserReply) (decisions : list DecisionResponse)
    : Env (list ArchivePayload) :=
  {| world := []; user_messages := replies; step_decisions := decisions;
     io := [] |}.

(** A decision message for [sid] of run [rid], as the socket layer
    queues it. *)
Definition decision (rid sid : string) (d : StepDecision)
    : DecisionResponse :=
  RespDict (Some rid) (Some sid) (Some (StepDecision_value d)).

End Mock.

(** ** Notions used in the proofs *)

Section DfsNotions.

Variable adjacency : pydict (list string).

(** The finished nodes: closed under dependencies, none on a cycle. *)
Definition settled (D : gset string) : Prop :=
  (∀ d m, d ∈ D → edge adjacency d m → m ∈ D) ∧ (∀ d, d ∈ D → ¬ on_cycle adjacency d).

Definition dfs_false_keeps_visiting
    (go : string → colors → option (bool * colors)) : Prop :=
  ∀ n c c', go n c = Some (false, c') → visiting c' = visiting c.

Definition key_set : gset string := list_to_set (PyDict.keys adjacency).

Definition dfs_sound (go : string → colors → option (bool * colors))
    : Prop :=
  ∀ n c r c',
    go n c = Some (r, c') →
    settled (visited c) → visiting c ## visited c →
    (∀ v, v ∈ visiting c → tc (edge adjacency) v n) →
    if r then reaches_cycle adjacency n
    else settled (visited c') ∧ visited c ⊆ visited c' ∧ n ∈ visited c'
         ∧ visiting c' ## visited c'.

End DfsNotions.

Section TurnNotions.

Context {W : Type}.
Variables (run_id : string) (tool_key : string).
Variable user_context : option UserContext.
Implicit Types (env : Env W) (c : Ctl).

(** The state of the mailboxes and of the history after the responses
    [seen] were read from the decision mailbox, [rest] being left. *)
Definition after_reading (seen rest : list DecisionResponse) env : Env W :=
  {| world := world env; user_messages := user_messages env;
     step_decisions := rest;
     io := io env ++ (StepDecisionRead <$> seen) |}.

(** The effect on the controller state of a decision other than
    [RETRY_STEP], taken on the failed step [sid]. *)
Definition decided (sid : string) (error : option ErrorEnvelope)
    (d : option string) (c : Ctl) : Ctl :=
  if decision_is ABORT_RUN d then set_aborted true c
  else if decision_is SKIP_STEP d then
    clear_fail_on sid (set_skipped_steps ({[sid]} ∪ skipped_steps c) c)
  else if decision_is SKIP_DEPENDENTS d then
    clear_fail_on sid (set_skipped_steps (skip_with_dependents sid c) c)
  else if decision_is REPLAN d then
    set_need_replan true
      (set_plan_dict None
         (set_conversation (conversation c ++ [failure_msg sid error]) c))
  else c.

(** What one attempt passes to the executor. *)
Definition attempt_context (retry_without_fail : bool)
    : option UserContext :=
  match user_context with
  | Some ((_ :: _) as ctx) =>
      if retry_without_fail then Some (PyDict.pop "fail_on_step_id" ctx)
      else user_context
  | _ => user_context
  end.

Definition attempt_plan (current_step : PlanStep) c : Plan :=
  {| plan_id := plan_id (plan_model c) +:+ "_step_" +:+ step_id current_step;
     plan_tool_key := tool_key;
     objective := "Execute step " +:+ step_id current_step;
     steps := [current_step] |}.

Definition attempt_fail_target (current_step : PlanStep)
    (retry_without_fail : bool) c : option string :=
  if retry_without_fail then None
  else if names_step (fail_on_step_id c) (step_id current_step)
  then Some (step_id current_step) else None.

(** The environment after the executor was called and the events [kept]
    were passed on. *)
Definition after_attempt (current_step : PlanStep)
    (retry_without_fail : bool) c (events kept : list ExecEvent) (w : W)
    env : Env W :=
  foldl (λ e p, record (Sent p) e)
    (record
       (ExecutePlan tool_key (attempt_plan current_step c)
          (attempt_context retry_without_fail)
          (attempt_fail_target current_step retry_without_fail c) events)
       (with_world w env))
    (P_EXEC_EVENT run_id <$> kept).

(** The state in which the walk restarts after a replan. *)
Definition restarted (p : Plan) (conv : list Message) c : Ctl :=
  set_exec_trace []
    (set_skipped_steps ∅
       (set_plan_model p (set_plan_dict (Some p) (set_conversation conv c)))).

(** The state in which the run ends when replanning gave no valid plan. *)
Definition replan_failed (new_plan : option Plan) (conv : list Message) c
    : Ctl :=
  set_aborted true
    (match new_plan with
     | Some p => set_plan_dict (Some p) (set_conversation conv c)
     | None => set_conversation conv c
     end).

(** An environment reached by sending, calling and reading user
    messages only: the decision mailbox is untouched and nothing that
    [read] observes was added. *)
Definition quiet env env' : Prop :=
  read run_id (io env') = read run_id (io env)
  ∧ step_decisions env' = step_decisions env
  ∧ length (user_messages env') ≤ length (user_messages env).

(** What the correction loop adds to what [read] observes: corrected
    plans only. *)
Definition corrected_by (k : nat) env env' : Prop :=
  awaited (read run_id (io env')) = awaited (read run_id (io env))
  ∧ taken (read run_id (io env')) = taken (read run_id (io env))
  ∧ shown (read run_id (io env')) = shown (read run_id (io env))
  ∧ corrected_plans (read run_id (io env'))
    = corrected_plans (read run_id (io env)) + k
  ∧ step_decisions env' = step_decisions env
  ∧ length (user_messages env') ≤ length (user_messages env).

(** The environment in which the first planning loop starts. *)
Definition planning_start (pre : Json) (w : W) env : Env W :=
  record (Sent (P_DEBUG run_id DbgSkeletonOk))
    (record (Sent (P_RUN_CREATED run_id))
       (record (FetchState tool_key user_context pre) (with_world w env))).

(** The state and the environment in which the execution loops start. *)
Definition first_attempt (p : Plan) (conv : list Message) : Ctl :=
  {| conversation := conv; plan_dict := Some p; plan_model := p;
     skipped_steps := ∅; exec_trace := []; aborted := false;
     need_replan := false;
     fail_on_step_id :=
       PyDict.get "fail_on_step_id" (default [] user_context) |}.

Definition execution_start (p : Plan) env : Env W :=
  record
    (Sent (P_DEBUG run_id
             (DbgFailOnStepId
                (PyDict.get "fail_on_step_id" (default [] user_context)))))
    (record (Sent (P_PLAN_ACCEPTED run_id p)) env).

End TurnNotions.

(** ** The execution phase as a state machine

    The moves of the controller between two points of the execution
    loops, on the pair of the controller state and the environment. *)

Section Moves.

Context {W : Type}.
Context `{!JsonSchema, !Planner W, !Executor W}.
Variables (run_id : string) (registry : Registry).
Variables (tool_key intent : string) (user_context : option UserContext).
Variable pre : Json.

Inductive walk_move : Ctl * Env W → Ctl * Env W → Prop :=
| move_attempt current_step retry_without_fail c env events w kept
    failure_event step_done_event :
    execute_plan tool_key (attempt_plan tool_key current_step c)
      (attempt_context user_context retry_without_fail)
      (attempt_fail_target current_step retry_without_fail c) (world env)
    = (events, w) →
    consume (step_id current_step) events false
    = (kept, failure_event, step_done_event) →
    walk_move (c, env)
      (set_exec_trace (exec_trace c ++ kept) c,
       after_attempt run_id tool_key user_context current_step
         retry_without_fail c events kept w env)
| move_decision sid error d c env env' :
    await_decision run_id sid
      (record (Sent (P_NEED_STEP_DECISION run_id (Some sid) error)) env)
    = Done (d, env') →
    walk_move (c, env)
      (if decision_is RETRY_STEP d then c else decided sid error d c, env')
| move_cascade sid c env :
    walk_move (c, env)
      (set_skipped_steps ({[sid]} ∪ skipped_steps c) c, env)
| move_clear sid c env :
    walk_move (c, env) (clear_fail_on sid c, env).

Inductive run_move : Ctl * Env W → Ctl * Env W → Prop :=
| move_walk x y : walk_move x y → run_move x y
| move_begin c env : run_move (c, env) (set_need_replan false c, env)
| move_replanned c env p conv env' :
    planning_loop run_id registry tool_key intent false 10 pre
      (conversation c) env
    = Done ((Some p, conv), env') →
    validate_plan p registry = [] →
    run_move (c, env)
      (restarted p conv c, record (Sent (P_PLAN_ACCEPTED run_id p)) env')
| move_replan_failed c env new_plan conv env' :
    planning_loop run_id registry tool_key intent false 10 pre
      (conversation c) env
    = Done ((new_plan, conv), env') →
    run_move (c, env) (replan_failed new_plan conv c, env').

(** What holds between the moves: no decision is awaited, an aborted
    run is marked so, the trace is what was sent since the plan was
    accepted and holds no executor summary, and [n] corrected plans
    were validated. *)
Definition consistent (n : nat) (x : Ctl * Env W) : Prop :=
  let s := read run_id (io x.2) in
  awaited s = None
  ∧ (abort_decided run_id (io x.2) → aborted x.1 = true)
  ∧ shown s = exec_trace x.1
  ∧ corrected_plans s = n
  ∧ Forall (λ e, ev_type e ≠ RUN_SUMMARY) (exec_trace x.1).

End Moves.

(** ** Scenarios on the mock collaborators *)

Module Scenario.

Definition run_id : string := "run-1".
Definition tool_key : string := "clickup".
Definition intent : string := "Set up a workspace".

(** The user context of a run with fault injection on [sid], as
    [scratch_test_orchestrator.py] passes it. *)
Definition fail_on (sid : string) : option UserContext :=
  Some [("demo_user", JBool true); ("fail_on_step_id", JStr sid)].

(** A run on the mock planner, executor and archivist. *)
Definition run_with (replies : list UserReply) (ctx : option UserContext)
    (decisions : list DecisionResponse)
    : Outcome (RunResult * Env (list ArchivePayload)) :=
  @start_run _ Mock.lenient Mock.planner Mock.executor Mock.archivist
    run_id Mock.registry tool_key intent ctx (Mock.env replies decisions).

(** The user answers the intake form once. *)
Definition run (ctx : option UserContext) (decisions : list DecisionResponse)
    : Outcome (RunResult * Env (list ArchivePayload)) :=
  run_with [Mock.user_reply] ctx decisions.

(** A run whose planner answers every call with [p]. *)
Definition run_plan (p : Plan) (ctx : option UserContext)
    (decisions : list DecisionResponse)
    : Outcome (RunResult * Env (list ArchivePayload)) :=
  @start_run _ Mock.lenient (Mock.fixed_planner p) Mock.executor
    Mock.archivist run_id Mock.registry tool_key intent ctx
    (Mock.env [] decisions).

Definition plan_of (steps : list PlanStep) : Plan :=
  {| plan_id := "plan"; plan_tool_key := tool_key; objective := intent;
     steps := steps |}.

Definition create (sid : string) (deps : list string) : PlanStep :=
  Mock.step sid "clickup.space.create" sid deps.

(** [S1] leads into the cycle between [S2] and [S3] and is on no cycle. *)
Definition late_cycle : list PlanStep :=
  [create "S1" ["S2"]; create "S2" ["S3"]; create "S3" ["S2"]].

(** [W] depends on [X] through [Z] and [Y], and is declared before both. *)
Definition out_of_order : list PlanStep :=
  [create "X" []; create "W" ["Z"]; create "Z" ["Y"]; create "Y" ["X"]].

(** [A] lists [X], which is declared after it. *)
Definition dependent_first : list PlanStep :=
  [create "A" ["X"]; create "X" []].

(** A step whose identifier is the empty string, with an operation the
    registry does not list. *)
Definition nameless : list PlanStep :=
  [Mock.step "" "clickup.unknown" "Space" []].

(** A user message that the mock planner does not count as an answer. *)
Definition aside : UserReply :=
  UserMsg {| msg_role := "operator"; msg_type := TEXT;
             msg_text := "one moment"; msg_fields := [] |}.

(** What a result shows of a run: its status, the types and steps of the
    trace, the output of the last event. *)
Definition outline (o : Outcome (RunResult * Env (list ArchivePayload)))
    : option (RunStatus * list (ExecutionEventType * option string)
              * option EventOutput) :=
  match o with
  | Done (r, _) =>
      Some (status r,
            (λ e, (ev_type e, ev_step_id e)) <$> execution_trace r,
            last (execution_trace r) ≫= ev_output)
  | _ => None
  end.

(** The calls of [execute_plan] in a run: the plan, the user context
    and the fault target of each. *)
Definition executor_calls
    (o : Outcome (RunResult * Env (list ArchivePayload)))
    : list (string * option UserContext * option string) :=
  match o with
  | Done (_, env) =>
      omap (λ e, match e with
                 | ExecutePlan _ p ctx target _ =>
                     Some (plan_id p, ctx, target)
                 | _ => None
                 end) (io env)
  | _ => []
  end.

End Scenario.

(** * Properties *)

(** ** The cycle rule of the validator *)

Lemma tc_first_step {A} (R : relation A) x z :
  tc R x z → ∃ y, R x y ∧ rtc R y z.
Proof.
  destruct 1 as [x y Hxy|x y z Hxy Hyz].
  - exists y. split; [done | apply rtc_refl].
  - exists y. split; [done | by apply tc_rtc].
Qed.

Section Dfs.

Variable adjacency : pydict (list string).

#[local] Abbreviation E := (edge adjacency).
#[local] Abbreviation settled := (settled adjacency).
#[local] Abbreviation key_set := (key_set adjacency).
#[local] Abbreviation dfs_sound := (dfs_sound adjacency).

Lemma settled_empty : settled ∅.
Proof. split; set_solver. Qed.

Lemma settled_rtc D d m : settled D → d ∈ D → rtc E d m → m ∈ D.
Proof.
  intros [Hcl _] Hd Hr. induction Hr as [|x y z Hxy _ IH]; [done|].
  apply IH. by eapply Hcl.
Qed.

Lemma settled_no_cycle D d : settled D → d ∈ D → ¬ reaches_cycle adjacency d.
Proof.
  intros HD Hd (m & Hr & Hm).
  destruct HD as [Hcl Hno]. eapply (Hno m); [|done].
  by eapply settled_rtc.
Qed.

Lemma edge_children n m :
  E n m ↔ m ∈ default [] (PyDict.get n adjacency).
Proof.
  unfold edge. destruct (PyDict.get n adjacency) as [l|]; simpl.
  - split; [intros (l' & [= <-] & ?); done | eauto].
  - split; [intros (l' & [=] & ?) | by intros ?%elem_of_nil].
Qed.

Lemma get_keys {V} k (d : pydict V) :
  PyDict.get k d = None ↔ k ∉ PyDict.keys d.
Proof.
  unfold PyDict.keys. induction d as [|[k' v] d IH]; simpl.
  - split; [set_solver | done].
  - case_decide; subst.
    + split; [done | set_solver].
    + rewrite IH. set_solver.
Qed.

Lemma dfs_each_keeps_visiting go :
  dfs_false_keeps_visiting go →
  ∀ l c c', dfs_each go l c = Some (false, c') → visiting c' = visiting c.
Proof.
  intros Hgo l. induction l as [|n l IH]; intros c c'; simpl.
  - by intros [= <-].
  - destruct (go n c) as [[[] c1]|] eqn:Hn; try done.
    intros Hl. rewrite (IH _ _ Hl). by eapply Hgo.
Qed.

Lemma dfs_keeps_visiting fuel : dfs_false_keeps_visiting (dfs fuel adjacency).
Proof.
  induction fuel as [|fuel IH]; intros n c c'; simpl; [done|].
  repeat case_decide; try by intros [= <-].
  destruct (dfs_each _ _ _) as [[[] c2]|] eqn:Hch; try done.
  intros [= <-]. simpl.
  apply (dfs_each_keeps_visiting _ IH) in Hch. rewrite Hch. simpl.
  set_solver.
Qed.

(** *** Termination: the recursion depth is bounded by the keys not
    yet in [visiting]. *)

Lemma size_list_to_set_le (l : list string) :
  size (list_to_set l : gset string) ≤ length l.
Proof.
  induction l as [|x l IH].
  - rewrite list_to_set_nil. by rewrite size_empty.
  - rewrite list_to_set_cons, size_union_alt, size_singleton. simpl.
    assert (size (list_to_set l ∖ {[x]} : gset string)
            ≤ size (list_to_set l : gset string))
      by (apply subseteq_size; set_solver).
    lia.
Qed.

Lemma key_set_size : size key_set < dfs_depth adjacency.
Proof.
  unfold dfs_depth, key_set, PyDict.keys.
  pose proof (size_list_to_set_le (adjacency.*1)) as Hle.
  rewrite length_fmap in Hle. lia.
Qed.

Lemma dfs_each_total go V :
  dfs_false_keeps_visiting go →
  (∀ n c, visiting c = V → is_Some (go n c)) →
  ∀ l c, visiting c = V → is_Some (dfs_each go l c).
Proof.
  intros Hkeep Hgo l. induction l as [|n l IH]; intros c Hc; simpl; [eauto|].
  destruct (Hgo n c Hc) as [[[] c1] Hn]; rewrite Hn; [eauto|].
  apply IH. rewrite <- Hc. by eapply Hkeep.
Qed.

Lemma dfs_total fuel n c :
  size (key_set ∖ visiting c) < fuel → is_Some (dfs fuel adjacency n c).
Proof.
  revert n c. induction fuel as [|fuel IH]; intros n c Hsz; [lia|].
  simpl. repeat case_decide; eauto.
  destruct (PyDict.get n adjacency) as [l|] eqn:Hget; simpl; [|eauto].
  assert (n ∈ key_set) as Hkey.
  { unfold key_set. rewrite elem_of_list_to_set.
    destruct (decide (n ∈ PyDict.keys adjacency)) as [|Hn]; [done|].
    apply get_keys in Hn. congruence. }
  set (c1 := {| visiting := {[n]} ∪ visiting c; visited := visited c |}).
  assert (size (key_set ∖ visiting c1) < fuel) as Hsz1.
  { assert (key_set ∖ visiting c1 ⊂ key_set ∖ visiting c) as Hsub
      by (simpl; set_solver).
    apply subset_size in Hsub. lia. }
  destruct (dfs_each_total (dfs fuel adjacency) (visiting c1)
              (dfs_keeps_visiting fuel)
              (λ m c' Hc', IH m c' ltac:(by rewrite Hc')) l c1 eq_refl)
    as [[[] c2] Hch]; rewrite Hch; eauto.
Qed.

Lemma cycle_scan_total fuel nodes c :
  size key_set < fuel → visiting c = ∅ →
  is_Some (cycle_scan fuel adjacency nodes c).
Proof.
  intros Hsz. revert c. induction nodes as [|n nodes IH]; intros c Hc; simpl.
  - eauto.
  - destruct (dfs_total fuel n c) as [[[] c1] Hn].
    { rewrite Hc.
      replace (key_set ∖ ∅) with key_set by set_solver. done. }
    + rewrite Hn. eauto.
    + rewrite Hn. apply IH.
      rewrite (dfs_keeps_visiting _ _ _ _ Hn). done.
Qed.

(** *** Correctness of the colouring *)

Lemma dfs_each_sound go :
  dfs_sound go → dfs_false_keeps_visiting go →
  ∀ l c r c',
    dfs_each go l c = Some (r, c') →
    settled (visited c) → visiting c ## visited c →
    (∀ m v, m ∈ l → v ∈ visiting c → tc E v m) →
    if r then ∃ m, m ∈ l ∧ reaches_cycle adjacency m
    else settled (visited c') ∧ visited c ⊆ visited c'
         ∧ (∀ m, m ∈ l → m ∈ visited c') ∧ visiting c' ## visited c'.
Proof.
  intros Hgo Hkeep l. induction l as [|n l IH]; intros c r c'; simpl.
  - intros [= <- <-] HD Hdisj _. split_and!; try done.
    intros m Hm. by apply elem_of_nil in Hm.
  - destruct (go n c) as [[[] c1]|] eqn:Hn; try done.
    + intros [= <- <-] HD Hdisj Hpath.
      exists n. split; [set_solver|].
      apply (Hgo _ _ _ _ Hn HD Hdisj). intros v Hv. apply Hpath; set_solver.
    + intros Hl HD Hdisj Hpath.
      destruct (Hgo _ _ _ _ Hn HD Hdisj) as (HD1 & Hsub1 & Hn1 & Hdisj1).
      { intros v Hv. apply Hpath; set_solver. }
      pose proof (Hkeep _ _ _ Hn) as Hv1.
      specialize (IH _ _ _ Hl HD1 Hdisj1).
      destruct r.
      * destruct IH as (m & Hm & Hcyc).
        { intros m v Hm Hv. apply Hpath; [set_solver|]. by rewrite <- Hv1. }
        exists m. split; [set_solver | done].
      * destruct IH as (HD2 & Hsub2 & Hall & Hdisj2).
        { intros m v Hm Hv. apply Hpath; [set_solver|]. by rewrite <- Hv1. }
        split_and!; [done | by etrans | | done].
        intros m [->|Hm]%elem_of_cons; [by apply Hsub2 | by apply Hall].
Qed.

Lemma dfs_is_sound fuel : dfs_sound (dfs fuel adjacency).
Proof.
  induction fuel as [|fuel IH]; intros n c r c'; simpl; [done|].
  case_decide as Hving.
  { intros [= <- <-] _ _ Hpath. exists n. split; [done|].
    by apply Hpath. }
  case_decide as Hved.
  { intros [= <- <-] HD Hdisj _. split_and!; done. }
  destruct (dfs_each _ _ _) as [[r2 c2]|] eqn:Hch; [|done].
  intros Hres HD Hdisj Hpath.
  pose proof (dfs_each_sound _ IH (dfs_keeps_visiting fuel) _ _ _ _ Hch)
    as Hsound. simpl in Hsound.
  assert (∀ m v, m ∈ default [] (PyDict.get n adjacency) →
                 v ∈ ({[n]} ∪ visiting c : gset string) → tc E v m)
    as Hpath1.
  { intros m v Hm%edge_children [->%elem_of_singleton|Hv]%elem_of_union.
    - by apply tc_once.
    - eapply tc_r; [by apply Hpath | done]. }
  specialize (Hsound HD ltac:(set_solver) Hpath1).
  destruct r2.
  - injection Hres as <- <-.
    destruct Hsound as (m & Hm%edge_children & x & Hmx & Hx).
    exists x. split; [by eapply rtc_l | done].
  - injection Hres as <- <-. simpl.
    destruct Hsound as (HD2 & Hsub & Hall & Hdisj2).
    pose proof (dfs_each_keeps_visiting _ (dfs_keeps_visiting fuel)
                  _ _ _ Hch) as Hv2. simpl in Hv2.
    assert (n ∉ visited c2) as Hn2 by (rewrite Hv2 in Hdisj2; set_solver).
    split; [split|].
    + intros d m [->%elem_of_singleton|Hd]%elem_of_union Hdm.
      * apply elem_of_union_r, Hall. by apply edge_children.
      * apply elem_of_union_r. destruct HD2 as [Hcl _]. by eapply Hcl.
    + intros d [->%elem_of_singleton|Hd]%elem_of_union Hcyc.
      * apply tc_first_step in Hcyc as (m & Hnm & Hmn).
        apply Hn2. eapply settled_rtc; [done| |done].
        apply Hall. by apply edge_children.
      * destruct HD2 as [_ Hno]. by eapply Hno.
    + rewrite Hv2. set_solver.
Qed.

Lemma cycle_scan_sound fuel nodes c res :
  cycle_scan fuel adjacency nodes c = Some res →
  settled (visited c) → visiting c = ∅ →
  match res with
  | Some node =>
      ∃ before after,
        nodes = before ++ node :: after
        ∧ reaches_cycle adjacency node
        ∧ ∀ k, k ∈ before → ¬ reaches_cycle adjacency k
  | None => ∃ D, settled D ∧ ∀ k, k ∈ nodes → k ∈ D
  end.
Proof.
  revert c. induction nodes as [|n nodes IH]; intros c; simpl.
  - intros [= <-] HD _. exists (visited c). split; [done|].
    intros k Hk. by apply elem_of_nil in Hk.
  - destruct (dfs fuel adjacency n c) as [[[] c1]|] eqn:Hn; [| |done].
    + intros [= <-] HD Hc. exists [], nodes. split_and!; [done| |].
      * apply (dfs_is_sound _ _ _ _ _ Hn HD); rewrite Hc; set_solver.
      * intros k Hk. by apply elem_of_nil in Hk.
    + intros Hscan HD Hc.
      destruct (dfs_is_sound _ _ _ _ _ Hn HD) as (HD1 & Hsub & Hn1 & _);
        [rewrite Hc; set_solver.. |].
      assert (visiting c1 = ∅) as Hc1
        by (by rewrite (dfs_keeps_visiting _ _ _ _ Hn)).
      specialize (IH _ Hscan HD1 Hc1). destruct res as [node|].
      * destruct IH as (before & after & -> & Hreach & Hfirst).
        exists (n :: before), after. split_and!; [done..|].
        intros k [->|Hk]%elem_of_cons; [|by apply Hfirst].
        by eapply settled_no_cycle.
      * destruct IH as (D & HD' & Hall). exists (D ∪ visited c1).
        (* [visited c1] is below the final set; keep both for [n]. *)
        split.
        -- destruct HD' as [Hcl Hno], HD1 as [Hcl1 Hno1]. split.
           ++ intros d m [Hd|Hd]%elem_of_union Hdm;
                [apply elem_of_union_l | apply elem_of_union_r]; eauto.
           ++ intros d [Hd|Hd]%elem_of_union; eauto.
        -- intros k [->|Hk]%elem_of_cons; [set_solver|].
           apply elem_of_union_l. by apply Hall.
Qed.

Lemma on_cycle_is_key n : on_cycle adjacency n → n ∈ PyDict.keys adjacency.
Proof.
  intros (m & (l & Hget & _) & _)%tc_first_step.
  destruct (decide (n ∈ PyDict.keys adjacency)) as [|Hn]; [done|].
  apply get_keys in Hn. congruence.
Qed.

(** The outer loop finds the first key from which a cycle is reachable,
    and finds none exactly when the graph has no cycle. *)
Lemma cycle_scan_correct :
  ∃ res,
    cycle_scan (dfs_depth adjacency) adjacency (PyDict.keys adjacency)
      no_colors = Some res
    ∧ match res with
      | Some node => first_key_reaching_cycle adjacency node
      | None => ¬ has_cycle adjacency
      end.
Proof.
  destruct (cycle_scan_total (dfs_depth adjacency) (PyDict.keys adjacency)
              no_colors key_set_size eq_refl) as [res Hres].
  exists res. split; [done|].
  pose proof (cycle_scan_sound _ _ _ _ Hres settled_empty eq_refl) as Hs.
  destruct res as [node|]; [done|].
  destruct Hs as (D & HD & Hall). intros (n & Hn).
  destruct HD as [_ Hno]. eapply Hno; [|done].
  by apply Hall, on_cycle_is_key.
Qed.

End Dfs.

Lemma cycle_errors_correct (steps : list PlanStep) :
  (has_cycle (adjacency_of steps) →
   ∃ node, cycle_errors steps = [cycle_error node]
           ∧ first_key_reaching_cycle (adjacency_of steps) node)
  ∧ (¬ has_cycle (adjacency_of steps) → cycle_errors steps = []).
Proof.
  unfold cycle_errors.
  destruct (cycle_scan_correct (adjacency_of steps)) as (res & -> & Hres).
  destruct res as [node|]; split; try done.
  - eauto.
  - intros Hno. destruct Hres as (before & after & _ & (m & _ & Hm) & _).
    destruct Hno. by exists m.
Qed.

Lemma filter_none {A} (P : A → Prop) `{!∀ x, Decision (P x)} (l : list A) :
  Forall (λ x, ¬ P x) l → filter P l = [].
Proof.
  induction 1 as [|x l Hx _ IH]; [done|].
  by rewrite filter_cons_False.
Qed.

Lemma filter_mjoin_none {A B} (P : B → Prop) `{!∀ x, Decision (P x)}
    (f : A → list B) (l : list A) :
  (∀ a, Forall (λ x, ¬ P x) (f a)) → filter P (mjoin (f <$> l)) = [].
Proof.
  intros Hf. apply filter_none. induction l as [|a l IH]; simpl; [done|].
  apply Forall_app. split; [apply Hf | apply IH].
Qed.

Lemma not_cycle_error_by_code e :
  ve_code e ≠ "INVALID_DEPENDENCY" → ¬ is_cycle_error e.
Proof. unfold is_cycle_error. intros Hne [? _]%bool_decide_unpack. done. Qed.

Lemma not_cycle_error_by_message e :
  ve_message e ≠ "Cycle detected in dependencies" → ¬ is_cycle_error e.
Proof. unfold is_cycle_error. intros Hne [_ ?]%bool_decide_unpack. done. Qed.

Section ValidatorFacts.

Context `{!JsonSchema}.

(** The errors of the cycle rule are exactly those [cycle_errors]
    contributes. *)
Lemma validate_plan_cycle_errors (p : Plan) (registry : Registry) :
  filter is_cycle_error (validate_plan p registry) = cycle_errors (steps p).
Proof.
  unfold validate_plan. rewrite !filter_app.
  rewrite (filter_none _ (match plan_schema_check p with _ => _ end)).
  2:{ destruct (plan_schema_check p); repeat constructor.
      by apply not_cycle_error_by_code. }
  rewrite (filter_none _ (if decide _ then _ else _)).
  2:{ case_decide; repeat constructor. by apply not_cycle_error_by_code. }
  rewrite (filter_mjoin_none _ (registry_errors_of _)).
  2:{ intros st. unfold registry_errors_of.
      repeat case_match; repeat constructor;
        by apply not_cycle_error_by_code. }
  rewrite (filter_mjoin_none _ (dependency_errors_of _)).
  2:{ intros st. unfold dependency_errors_of.
      induction (depends_on st) as [|dep deps IH]; simpl; [done|].
      apply Forall_app. split; [|done].
      apply Forall_app. split; case_decide; repeat constructor;
        by apply not_cycle_error_by_message. }
  simpl. unfold cycle_errors.
  destruct (cycle_scan _ _ _ _) as [[node|]|]; done.
Qed.

End ValidatorFacts.

(** ** Where the traversal closes a cycle *)

(** [closing_dfs] answers as [dfs] does, with the same colours. *)
Lemma closing_dfs_agrees fuel adjacency parent node c :
  dfs fuel adjacency node c
  = match closing_dfs fuel adjacency parent node c with
    | Some (Some _, c') => Some (true, c')
    | Some (None, c') => Some (false, c')
    | None => None
    end.
Proof.
  revert parent node c. induction fuel as [|fuel IH]; intros parent node c;
    [done|].
  simpl. destruct (decide _); [done|]. destruct (decide _); [done|].
  assert (∀ l c1,
            dfs_each (dfs fuel adjacency) l c1
            = match closing_each (closing_dfs fuel adjacency node) l c1 with
              | Some (Some _, c') => Some (true, c')
              | Some (None, c') => Some (false, c')
              | None => None
              end) as ->.
  { induction l as [|nxt l IHl]; intros c1; [done|].
    simpl. rewrite (IH node nxt c1).
    destruct (closing_dfs fuel adjacency node nxt c1) as [[[e|] c2]|];
      [done| |done].
    apply IHl. }
  by destruct (closing_each _ _ _) as [[[e|] c2]|].
Qed.

(** [closing_scan] finds a closing edge exactly when [cycle_scan]
    breaks at a key. *)
Lemma closing_scan_agrees fuel adjacency nodes c :
  from_option (λ _, true) false <$> closing_scan fuel adjacency nodes c
  = from_option (λ _, true) false <$> cycle_scan fuel adjacency nodes c.
Proof.
  revert c. induction nodes as [|node nodes IH]; intros c; [done|].
  simpl. rewrite (closing_dfs_agrees fuel adjacency node node c).
  destruct (closing_dfs fuel adjacency node node c) as [[[e|] c2]|];
    simpl; [done| |done].
  apply IH.
Qed.

(** ** The run monad *)

Section Monad.

Context {W : Type}.
Implicit Types env : Env W.

Lemma bind_done {A B} (m : M W A) (k : A → M W B) env b env' :
  bind m k env = Done (b, env') ↔
  ∃ a env1, m env = Done (a, env1) ∧ k a env1 = Done (b, env').
Proof.
  unfold bind. split.
  - destruct (m env) as [[a env1]| | |]; try done. eauto.
  - intros (a & env1 & -> & Hk). done.
Qed.

Lemma bind_spent {A B} (m : M W A) (k : A → M W B) env :
  bind m k env = Spent ↔
  m env = Spent ∨ ∃ a env1, m env = Done (a, env1) ∧ k a env1 = Spent.
Proof.
  unfold bind. split.
  - destruct (m env) as [[a env1]| | |]; try done; eauto.
  - intros [->|(a & env1 & -> & Hk)]; done.
Qed.

Lemma read_record run_id e env :
  read run_id (io (record e env)) = read_entry run_id (read run_id (io env)) e.
Proof. unfold read. simpl. by rewrite foldl_snoc. Qed.

Lemma emit_all_done (ps : list Payload) env :
  emit_all ps env = Done ((), foldl (λ e p, record (Sent p) e) env ps).
Proof.
  revert env. induction ps as [|p ps IH]; intros env; [done|].
  simpl. unfold bind, _emit. simpl. apply IH.
Qed.

Lemma foldl_record_queues (ps : list Payload) env :
  let env' := foldl (λ e p, record (Sent p) e) env ps in
  world env' = world env
  ∧ user_messages env' = user_messages env
  ∧ step_decisions env' = step_decisions env
  ∧ io env' = io env ++ (Sent <$> ps).
Proof.
  revert env. induction ps as [|p ps IH]; intros env; simpl.
  - by rewrite app_nil_r.
  - destruct (IH (record (Sent p) env)) as (-> & -> & -> & ->). simpl.
    by rewrite <- app_assoc.
Qed.

End Monad.

(** Takes a hypothesis [m env = Done _] apart along the binds of [m]. *)
Ltac run_inv H :=
  let a := fresh "a" in
  let env1 := fresh "env" in
  let Hm := fresh "Hrun" in
  apply bind_done in H as (a & env1 & Hm & H).

(** ** Waiting for a step decision *)

Section Decision.

Context {W : Type}.
Variable run_id : string.
Implicit Types env : Env W.

Lemma decision_loop_accepts fuel sid env dropped r rest d :
  step_decisions env = dropped ++ r :: rest →
  Forall (λ x, accepts run_id sid x = None) dropped →
  accepts run_id sid r = Some d →
  length dropped < fuel →
  decision_loop run_id fuel sid env
  = Done (d, after_reading (dropped ++ [r]) rest env).
Proof.
  revert env dropped. induction fuel as [|fuel IH];
    intros env dropped Hq Hdropped Hr Hfuel; [lia|].
  simpl. unfold bind, wait_for_step_decision. rewrite Hq.
  destruct dropped as [|x dropped]; simpl.
  - unfold accepts in Hr. destruct r as [a b dd|v]; simpl.
    + case_bool_decide; [|done]. injection Hr as ->.
      unfold ret, after_reading, record. simpl. done.
    + injection Hr as <-. done.
  - apply Forall_cons in Hdropped as [Hx Hdropped].
    unfold accepts in Hx. destruct x as [a b dd|v]; [|done].
    case_bool_decide; [done|].
    erewrite IH; [| done | done | done | simpl in Hfuel; lia].
    unfold after_reading, record. simpl.
    by rewrite <- app_assoc.
Qed.

Lemma decision_loop_blocks fuel sid env :
  Forall (λ x, accepts run_id sid x = None) (step_decisions env) →
  length (step_decisions env) < fuel →
  decision_loop run_id fuel sid env = Blocked.
Proof.
  revert env. induction fuel as [|fuel IH]; intros env Hall Hfuel; [lia|].
  simpl. unfold bind, wait_for_step_decision.
  destruct (step_decisions env) as [|x q] eqn:Hq; [done|].
  apply Forall_cons in Hall as [Hx Hall].
  unfold accepts in Hx. destruct x as [a b dd|v]; [|done].
  case_bool_decide; [done|].
  apply IH; simpl; [done | simpl in Hfuel; lia].
Qed.

(** Every mailbox splits at its first acceptable response, if any. *)
Lemma first_accepted sid (q : list DecisionResponse) :
  Forall (λ x, accepts run_id sid x = None) q
  ∨ ∃ dropped r rest d,
      q = dropped ++ r :: rest
      ∧ Forall (λ x, accepts run_id sid x = None) dropped
      ∧ accepts run_id sid r = Some d.
Proof.
  induction q as [|x q IH]; [by left|].
  destruct (accepts run_id sid x) as [d|] eqn:Hx.
  - right. exists [], x, q, d. done.
  - destruct IH as [Hall|(dropped & r & rest & d & -> & Hd & Hr)].
    + left. by constructor.
    + right. exists (x :: dropped), r, rest, d. split_and!; [done | | done].
      by constructor.
Qed.

(** [await_decision] returns exactly when the mailbox holds an
    acceptable response, with the first one. *)
Lemma await_decision_done sid env d env' :
  await_decision run_id sid env = Done (d, env') ↔
  ∃ dropped r rest,
    step_decisions env = dropped ++ r :: rest
    ∧ Forall (λ x, accepts run_id sid x = None) dropped
    ∧ accepts run_id sid r = Some d
    ∧ env' = after_reading (dropped ++ [r]) rest env.
Proof.
  unfold await_decision. split.
  - intros Hrun.
    destruct (first_accepted sid (step_decisions env))
      as [Hall|(dropped & r & rest & d' & Hq & Hd & Hr)].
    + rewrite decision_loop_blocks in Hrun; [done | done | lia].
    + rewrite (decision_loop_accepts _ _ _ _ _ _ _ Hq Hd Hr) in Hrun.
      * injection Hrun as <- <-. eauto 10.
      * rewrite Hq, length_app. simpl. lia.
  - intros (dropped & r & rest & Hq & Hd & Hr & ->).
    apply decision_loop_accepts; [done..|].
    rewrite Hq, length_app. simpl. lia.
Qed.

Lemma await_decision_outcome sid env :
  (∃ d env', await_decision run_id sid env = Done (d, env'))
  ∨ await_decision run_id sid env = Blocked.
Proof.
  destruct (first_accepted sid (step_decisions env))
    as [Hall|(dropped & r & rest & d & Hq & Hd & Hr)].
  - right. apply decision_loop_blocks; [done | lia].
  - left. eexists _, _. apply await_decision_done. eauto 10.
Qed.

End Decision.

(** ** One turn of each loop of the controller *)

Section Turns.

Context {W : Type}.
Context `{!JsonSchema, !Planner W, !Executor W, !Archivist W}.
Variables (run_id : string) (registry : Registry).
Variables (tool_key intent : string) (user_context : option UserContext).
Implicit Types (env : Env W) (c : Ctl).

#[local] Abbreviation exec_attempts' :=
  (exec_attempts run_id tool_key user_context).
#[local] Abbreviation run_step' := (run_step run_id tool_key user_context).
#[local] Abbreviation walk' := (walk run_id tool_key user_context).
#[local] Abbreviation planning_loop' :=
  (planning_loop run_id registry tool_key intent).
#[local] Abbreviation run_attempts' :=
  (run_attempts run_id registry tool_key intent user_context).

#[local] Abbreviation attempt_context := (attempt_context user_context).
#[local] Abbreviation attempt_plan := (attempt_plan tool_key).
#[local] Abbreviation after_attempt :=
  (after_attempt run_id tool_key user_context).

Lemma exec_attempts_turn fuel current_step retry_without_fail c env :
  let sid := step_id current_step in
  ∃ events w kept failure_event step_done_event,
    execute_plan tool_key (attempt_plan current_step c)
      (attempt_context retry_without_fail)
      (attempt_fail_target current_step retry_without_fail c) (world env)
    = (events, w)
    ∧ consume sid events false = (kept, failure_event, step_done_event)
    ∧ let env2 :=
        after_attempt current_step retry_without_fail c events kept w env in
      let c2 := set_exec_trace (exec_trace c ++ kept) c in
      exec_attempts' (S fuel) current_step retry_without_fail c env
      = match failure_event with
        | None => Done ((c2, step_done_event), env2)
        | Some failure_event =>
            match await_decision run_id sid
                    (record
                       (Sent (P_NEED_STEP_DECISION run_id (Some sid)
                                (ev_error failure_event))) env2) with
            | Done (d, env3) =>
                if decision_is RETRY_STEP d
                then exec_attempts' fuel current_step true c2 env3
                else Done ((decided sid (ev_error failure_event) d c2,
                            false), env3)
            | Blocked => Blocked
            | Raised e => Raised e
            | Spent => Spent
            end
        end.
Proof.
  intros sid.
  destruct (execute_plan tool_key (attempt_plan current_step c)
              (attempt_context retry_without_fail)
              (attempt_fail_target current_step retry_without_fail c)
              (world env)) as [events w] eqn:Hexec.
  destruct (consume sid events false) as [[kept fe] sd] eqn:Hcons.
  exists events, w, kept, fe, sd. split_and!; [done..|].
  cbn zeta. cbn [exec_attempts].
  unfold bind at 1. unfold call_execute_plan.
  fold (attempt_context retry_without_fail).
  fold (attempt_plan current_step c).
  fold (attempt_fail_target current_step retry_without_fail c).
  fold sid. rewrite Hexec, Hcons.
  unfold bind at 1. rewrite emit_all_done.
  fold (after_attempt current_step retry_without_fail c events kept w env).
  destruct fe as [fe|]; [|done].
  unfold bind at 1. unfold _emit at 1.
  unfold bind at 1.
  destruct (await_decision _ _ _) as [[d env3]| | |]; try done.
  unfold decided.
  destruct (decision_is ABORT_RUN d) eqn:Habort.
  { unfold decision_is in *. apply bool_decide_eq_true in Habort as ->.
    rewrite bool_decide_eq_false_2; done. }
  destruct (decision_is RETRY_STEP d); [done|].
  repeat (case_match; try done).
Qed.

Lemma walk_cons current_step rest c env :
  walk' (current_step :: rest) c env
  = let sid := step_id current_step in
    if aborted c then Done (c, env)
    else if decide (sid ∈ skipped_steps c) then walk' rest c env
    else if existsb (λ dep, bool_decide (dep ∈ skipped_steps c))
              (depends_on current_step)
    then walk' rest (set_skipped_steps ({[sid]} ∪ skipped_steps c) c) env
    else
      match run_step' current_step c env with
      | Done ((c1, step_completed), env1) =>
          if aborted c1 || need_replan c1 then Done (c1, env1)
          else if decide (sid ∈ skipped_steps c1) then walk' rest c1 env1
          else if step_completed
          then walk' rest (clear_fail_on sid c1) env1
          else walk' rest c1 env1
      | Blocked => Blocked
      | Raised e => Raised e
      | Spent => Spent
      end.
Proof.
  cbn [walk]. cbn zeta.
  destruct (aborted c); [done|].
  destruct (decide _); [done|].
  destruct (existsb _ _); [done|].
  unfold bind at 1.
  destruct (run_step' current_step c env) as [[[c1 b] env1]| | |];
    [|done..].
  destruct (aborted c1 || need_replan c1); [done|].
  destruct (decide _); [done|]. by destruct b.
Qed.

Lemma run_attempts_turn fuel pre c env :
  run_attempts' (S fuel) pre c env
  = match walk' (steps (plan_model c)) (set_need_replan false c) env with
    | Done (c1, env1) =>
        if aborted c1 then Done (c1, env1)
        else if need_replan c1 then
          match planning_loop' false 10 pre (conversation c1) env1 with
          | Done ((new_plan, conv), env2) =>
              match new_plan with
              | Some p =>
                  match validate_plan p registry with
                  | [] =>
                      run_attempts' fuel pre (restarted p conv c1)
                        (record (Sent (P_PLAN_ACCEPTED run_id p)) env2)
                  | _ :: _ => Done (replan_failed new_plan conv c1, env2)
                  end
              | None => Done (replan_failed new_plan conv c1, env2)
              end
          | Blocked => Blocked
          | Raised e => Raised e
          | Spent => Spent
          end
        else Done (c1, env1)
    | Blocked => Blocked
    | Raised e => Raised e
    | Spent => Spent
    end.
Proof.
  cbn [run_attempts]. cbn zeta. unfold bind at 1. cbn [plan_model set_need_replan].
  destruct (walk' _ _ _) as [[c1 env1]| | |]; try done.
  destruct (aborted c1); [done|]. destruct (need_replan c1); [|done].
  unfold bind at 1.
  destruct (planning_loop' _ _ _ _ _) as [[[new_plan conv] env2]| | |];
    try done.
  destruct new_plan as [p|]; [|done].
  destruct (validate_plan p registry); done.
Qed.

End Turns.

(** ** The planner loops *)

Section PlannerLoops.

Context {W : Type}.
Context `{!JsonSchema, !Planner W}.
Variables (run_id : string) (registry : Registry).
Variables (tool_key intent : string).
Implicit Types (env : Env W).

#[local] Abbreviation planning_loop' :=
  (planning_loop run_id registry tool_key intent).
#[local] Abbreviation planner_input' :=
  (planner_input registry tool_key intent).
#[local] Abbreviation correction_loop' :=
  (correction_loop run_id registry tool_key intent).

#[local] Abbreviation quiet := (quiet run_id).
#[local] Abbreviation corrected_by := (corrected_by run_id).

Lemma call_planner_done i env output env' :
  call_planner i env = Done (output, env') ↔
  ∃ w, planner_next i (world env) = (Returns output, w)
       ∧ env' = record (PlannerNext i output) (with_world w env).
Proof.
  unfold call_planner.
  destruct (planner_next i (world env)) as [[o|e] w]; split.
  - intros [= <- <-]. eauto.
  - intros (w' & [= <- <-] & ->). done.
  - done.
  - intros (w' & [=] & _).
Qed.

Lemma ask_user_done role text fields conv env conv' env' :
  ask_user run_id role text fields conv env = Done (conv', env') ↔
  ∃ m rest,
    user_messages env = UserMsg m :: rest
    ∧ conv' = conv ++ [m]
    ∧ env' =
        record (UserMessageRead (UserMsg m))
          {| world := world env; user_messages := rest;
             step_decisions := step_decisions env;
             io := io env
                   ++ [Sent (P_PLANNER_MESSAGE run_id
                               (default "assistant" role) text fields)] |}.
Proof.
  unfold ask_user, bind, _emit, wait_for_user_message, ret. simpl.
  destruct (user_messages env) as [|[m|e] rest]; split; try done.
  - intros (? & ? & [=] & _).
  - intros [= <- <-]. eauto.
  - intros (m' & rest' & [= <- <-] & -> & ->). done.
  - intros (? & ? & [=] & _).
Qed.

Lemma quiet_refl env : quiet env env.
Proof. by split_and!. Qed.

Lemma quiet_trans env1 env2 env3 :
  quiet env1 env2 → quiet env2 env3 → quiet env1 env3.
Proof.
  intros (? & ? & ?) (? & ? & ?). split_and!; [congruence..|lia].
Qed.

Lemma ask_user_quiet role text fields conv env conv' env' :
  ask_user run_id role text fields conv env = Done (conv', env') →
  quiet env env'
  ∧ length (user_messages env') < length (user_messages env).
Proof.
  intros (m & rest & Hq & -> & ->)%ask_user_done.
  unfold quiet. rewrite read_record. unfold read. simpl.
  rewrite foldl_snoc, Hq. simpl. split_and!; (done || lia).
Qed.

Lemma planning_loop_quiet report turns pre conv env new_plan conv' env' :
  planning_loop' report turns pre conv env = Done ((new_plan, conv'), env') →
  quiet env env'.
Proof.
  revert conv env. induction turns as [|turns IH]; intros conv env; simpl.
  - intros [= <- <- <-]. apply quiet_refl.
  - intros Hrun. run_inv Hrun.
    apply call_planner_done in Hrun0 as (w & Hnext & ->).
    assert (quiet env
              (record (PlannerNext (planner_input' pre conv None) a)
                 (with_world w env))) as Hq.
    { unfold quiet. rewrite read_record. simpl.
      split_and!; [by destruct a | done..]. }
    destruct a as [role text fields|p|type].
    + run_inv Hrun. apply ask_user_quiet in Hrun0 as [Hq' _].
      eapply quiet_trans; [done|]. eapply quiet_trans; [done|]. by eapply IH.
    + injection Hrun as <- <- <-. done.
    + run_inv Hrun. eapply quiet_trans; [done|].
      eapply quiet_trans; [|by eapply IH].
      destruct report; simpl in Hrun0.
      * injection Hrun0 as _ <-. unfold quiet. rewrite read_record.
        simpl. by split_and!.
      * injection Hrun0 as _ <-. apply quiet_refl.
Qed.

Lemma planning_loop_not_spent report turns pre conv env :
  planning_loop' report turns pre conv env ≠ Spent.
Proof.
  revert conv env. induction turns as [|turns IH]; intros conv env; simpl.
  - done.
  - intros [Hs|(a & env1 & Hcall & Hs)]%bind_spent.
    + unfold call_planner in Hs. by repeat case_match.
    + destruct a as [role text fields|p|type]; [| done |].
      * apply bind_spent in Hs as [Hs|(conv' & env2 & _ & Hs)];
          [|by eapply IH].
        unfold ask_user, bind, _emit, wait_for_user_message in Hs.
        simpl in Hs. by repeat case_match.
      * apply bind_spent in Hs as [Hs|(? & env2 & _ & Hs)];
          [|by eapply IH].
        by destruct report.
Qed.

Lemma quiet_corrected_by env env' : quiet env env' → corrected_by 0 env env'.
Proof.
  intros (Hr & ? & ?). unfold corrected_by. rewrite Hr.
  split_and!; (done || lia).
Qed.

Lemma corrected_by_trans j k env1 env2 env3 :
  corrected_by j env1 env2 → corrected_by k env2 env3 →
  corrected_by (j + k) env1 env3.
Proof.
  intros (? & ? & ? & ? & ? & ?) (? & ? & ? & ? & ? & ?).
  unfold corrected_by. split_and!; (congruence || lia).
Qed.

(** Entries that [read] does not observe. *)
Lemma quiet_record e env :
  (∀ s, read_entry run_id s e = s) → quiet env (record e env).
Proof.
  intros He. unfold quiet. rewrite read_record, He. by split_and!.
Qed.

Lemma quiet_world w env : quiet env (with_world w env).
Proof. by split_and!. Qed.

Lemma quiet_then_record e env env' :
  quiet env env' → (∀ s, read_entry run_id s e = s) → quiet env (record e env').
Proof. intros Hq He. eapply quiet_trans; [done|]. by apply quiet_record. Qed.

Lemma quiet_after_invalid errs i output w env :
  (∀ s, read_entry run_id s (PlannerNext i output) = s) →
  quiet env
    (record (PlannerNext i output)
       (with_world w (record (Sent (P_PLAN_INVALID run_id errs)) env))).
Proof.
  intros Hout.
  eapply quiet_trans;
    [by apply (quiet_record (Sent (P_PLAN_INVALID run_id errs)))|].
  eapply quiet_trans; [apply (quiet_world w)|]. by apply quiet_record.
Qed.

Lemma corrected_by_plan errs pre conv q w env :
  corrected_by 1 env
    (record (PlannerNext (planner_input' pre conv (Some errs)) (OutPlan q))
       (with_world w (record (Sent (P_PLAN_INVALID run_id errs)) env))).
Proof.
  unfold corrected_by.
  rewrite (read_record run_id (PlannerNext _ (OutPlan q))).
  change (io (with_world w ?e)) with (io e).
  rewrite (read_record run_id (Sent (P_PLAN_INVALID run_id errs))).
  cbn [read_entry planner_input pi_validation_errors
       awaited taken shown corrected_plans].
  split_and!; (done || lia).
Qed.

Lemma correction_loop_done fuel pre p errs n conv env p' errs' n' conv' env' :
  correction_loop' fuel pre p errs n conv env
  = Done ((p', errs', n', conv'), env') →
  n ≤ max_correction_retries →
  errs = validate_plan p registry →
  n ≤ n' ≤ max_correction_retries
  ∧ errs' = validate_plan p' registry
  ∧ corrected_by (n' - n) env env'.
Proof.
  revert p errs n conv env.
  induction fuel as [|fuel IH]; intros p errs n conv env; [done|].
  simpl. destruct (bool_decide (errs ≠ []) && bool_decide (n < _)) eqn:Hgo.
  - apply andb_true_iff in Hgo as [_ Hn%bool_decide_eq_true].
    intros Hrun Hle Herrs. unfold bind at 1, _emit at 1 in Hrun.
    run_inv Hrun. apply call_planner_done in Hrun0 as (w & Hnext & ->).
    set (env1 := record (Sent (P_PLAN_INVALID run_id errs)) env) in *.
    destruct a as [role text fields|q|type].
    + run_inv Hrun. apply ask_user_quiet in Hrun0 as [Hq _].
      destruct (IH _ _ _ _ _ Hrun Hle Herrs) as (Hn' & Herrs' & Hc).
      split; [done|]. split; [done|].
      replace (n' - n) with (0 + (0 + (n' - n))) by lia.
      eapply corrected_by_trans;
        [|eapply corrected_by_trans; [by apply quiet_corrected_by, Hq|done]].
      apply quiet_corrected_by. subst env1. by apply quiet_after_invalid.
    + destruct (IH _ _ _ _ _ Hrun ltac:(lia) eq_refl)
        as (Hn' & Herrs' & Hc).
      split; [lia|]. split; [done|].
      replace (n' - n) with (1 + (n' - S n)) by lia.
      eapply corrected_by_trans; [|done].
      subst env1. apply corrected_by_plan.
    + injection Hrun as <- <- <- <- <-.
      split; [lia|]. split; [done|].
      replace (n - n) with 0 by lia.
      apply quiet_corrected_by. subst env1. by apply quiet_after_invalid.
  - intros [= <- <- <- <- <-] Hle Herrs. split; [lia|]. split; [done|].
    replace (n - n) with 0 by lia. apply quiet_corrected_by, quiet_refl.
Qed.

Lemma correction_loop_not_spent fuel pre p errs n conv env :
  length (user_messages env) + (max_correction_retries - n) < fuel →
  correction_loop' fuel pre p errs n conv env ≠ Spent.
Proof.
  revert p errs n conv env.
  induction fuel as [|fuel IH]; intros p errs n conv env Hfuel; [lia|].
  simpl. destruct (bool_decide (errs ≠ []) && bool_decide (n < _)) eqn:Hgo;
    [|done].
  apply andb_true_iff in Hgo as [_ Hn%bool_decide_eq_true].
  unfold bind at 1, _emit at 1.
  intros [Hs|(a & env1 & Hcall & Hs)]%bind_spent.
  - unfold call_planner in Hs. by repeat case_match.
  - apply call_planner_done in Hcall as (w & Hnext & ->).
    destruct a as [role text fields|q|type]; [| |done].
    + apply bind_spent in Hs as [Hs|(conv' & env2 & Hask & Hs)].
      * unfold ask_user, bind, _emit, wait_for_user_message in Hs.
        simpl in Hs. by repeat case_match.
      * apply ask_user_quiet in Hask as [_ Hlt].
        cbn [user_messages record with_world] in Hlt.
        eapply IH; [|done]. lia.
    + eapply IH; [|done]. unfold max_correction_retries in *.
      cbn [user_messages record with_world]. lia.
Qed.

End PlannerLoops.

(** ** The loops run the state machine *)

Section Machine.

Context {W : Type}.
Context `{!JsonSchema, !Planner W, !Executor W, !Archivist W}.
Variables (run_id : string) (registry : Registry).
Variables (tool_key intent : string) (user_context : option UserContext).
Variable pre : Json.
Implicit Types (env : Env W) (c : Ctl).

#[local] Abbreviation exec_attempts' :=
  (exec_attempts run_id tool_key user_context).
#[local] Abbreviation run_step' := (run_step run_id tool_key user_context).
#[local] Abbreviation walk' := (walk run_id tool_key user_context).
#[local] Abbreviation planning_loop' :=
  (planning_loop run_id registry tool_key intent).
#[local] Abbreviation run_attempts' :=
  (run_attempts run_id registry tool_key intent user_context).
#[local] Abbreviation walk_move := (walk_move run_id tool_key user_context).
#[local] Abbreviation run_move :=
  (run_move run_id registry tool_key intent user_context pre).
#[local] Abbreviation consistent := (consistent run_id).

Lemma exec_attempts_moves fuel current_step retry_without_fail c env
    c' b env' :
  exec_attempts' fuel current_step retry_without_fail c env
  = Done ((c', b), env') →
  rtc walk_move (c, env) (c', env').
Proof.
  revert retry_without_fail c env.
  induction fuel as [|fuel IH]; intros retry c env; [done|].
  destruct (exec_attempts_turn run_id tool_key user_context fuel
              current_step retry c env)
    as (events & w & kept & fe & sd & Hexec & Hcons & ->).
  intros Hrun. eapply rtc_l; [by eapply move_attempt|]. clear Hexec Hcons.
  destruct fe as [fe|].
  - destruct (await_decision _ _ _) as [[d env3]| | |] eqn:Hd; try done.
    eapply rtc_l; [by eapply move_decision|].
    destruct (decision_is RETRY_STEP d).
    + by eapply IH.
    + injection Hrun as <- <- <-. done.
  - injection Hrun as <- <- <-. done.
Qed.

Lemma walk_moves remaining c env c' env' :
  walk' remaining c env = Done (c', env') →
  rtc walk_move (c, env) (c', env').
Proof.
  revert c env. induction remaining as [|current_step rest IH];
    intros c env.
  - intros [= <- <-]. done.
  - rewrite walk_cons. cbn zeta.
    destruct (aborted c); [by intros [= <- <-]|].
    destruct (decide _); [by apply IH|].
    destruct (existsb _ _).
    { intros Hrun. eapply rtc_l; [apply move_cascade|]. by apply IH. }
    destruct (run_step' current_step c env) as [[[c1 b] env1]| | |] eqn:Hstep;
      try done.
    apply exec_attempts_moves in Hstep. intros Hrun.
    etrans; [done|].
    destruct (aborted c1 || need_replan c1); [by injection Hrun as <- <-|].
    destruct (decide _); [by apply IH|].
    destruct b; [|by apply IH].
    eapply rtc_l; [apply move_clear|]. by apply IH.
Qed.

Lemma run_attempts_moves fuel c env c' env' :
  run_attempts' fuel pre c env = Done (c', env') →
  rtc run_move (c, env) (c', env').
Proof.
  revert c env. induction fuel as [|fuel IH]; intros c env; [done|].
  rewrite run_attempts_turn.
  destruct (walk' _ _ _) as [[c1 env1]| | |] eqn:Hwalk; try done.
  apply walk_moves in Hwalk. intros Hrun.
  eapply rtc_l; [apply move_begin|].
  etrans; [eapply rtc_subrel; [|done]; by constructor|].
  destruct (aborted c1); [by injection Hrun as <- <-|].
  destruct (need_replan c1); [|by injection Hrun as <- <-].
  destruct (planning_loop' _ _ _ _ _) as [[[new_plan conv] env2]| | |]
    eqn:Hplan; try done.
  destruct new_plan as [p|].
  - destruct (validate_plan p registry) eqn:Hvalid.
    + eapply rtc_l; [by eapply move_replanned|]. by apply IH.
    + injection Hrun as <- <-. eapply rtc_once. by eapply move_replan_failed.
  - injection Hrun as <- <-. eapply rtc_once. by eapply move_replan_failed.
Qed.

End Machine.

(** ** The events a step attempt keeps *)

Lemma consume_kept sid events before_done kept failure_event step_done_event :
  consume sid events before_done = (kept, failure_event, step_done_event) →
  Forall (λ e, ev_type e ≠ RUN_SUMMARY) kept.
Proof.
  revert before_done kept failure_event step_done_event.
  induction events as [|event rest IH]; intros before_done kept fe sd; simpl.
  - intros [= <- _ _]. constructor.
  - destruct (decide _) as [Hs|Hs]; [by apply IH|].
    case_bool_decide.
    + intros [= <- _ _]. by repeat constructor.
    + destruct (consume sid rest _) as [[k f] d] eqn:Hc.
      intros [= <- _ _]. constructor; [done|]. by eapply IH.
Qed.

(** The failure event is the last event kept, and the only failure of
    the step among them. *)
Lemma consume_failure sid events before_done kept failure_event step_done_event :
  consume sid events before_done = (kept, Some failure_event, step_done_event) →
  ev_type failure_event = STEP_FAILED
  ∧ ev_step_id failure_event = Some sid
  ∧ failure_event ∈ events
  ∧ ∃ before, kept = before ++ [failure_event].
Proof.
  revert before_done kept step_done_event.
  induction events as [|event rest IH]; intros before_done kept sd; simpl; [done|].
  destruct (decide _) as [Hs|Hs].
  { intros (? & ? & ? & ?)%IH. split_and!; [done..| |done]. by right. }
  case_bool_decide as Hf.
  - intros [= <- <- _]. destruct Hf. split_and!; [done..| |by exists []].
    by left.
  - destruct (consume sid rest _) as [[k f] d] eqn:Hc.
    intros [= <- -> _]. apply IH in Hc as (? & ? & ? & before & ->).
    split_and!; [done..| |by exists (event :: before)]. by right.
Qed.

Lemma consume_no_failure sid events before_done kept step_done_event :
  consume sid events before_done = (kept, None, step_done_event) →
  kept = filter (λ e, ev_type e ≠ RUN_SUMMARY) events
  ∧ Forall (λ e, ¬ (ev_type e = STEP_FAILED ∧ ev_step_id e = Some sid)) kept
  ∧ (step_done_event = true ↔
     before_done = true
     ∨ Exists (λ e, ev_type e = STEP_DONE ∧ ev_step_id e = Some sid) kept).
Proof.
  revert before_done kept step_done_event.
  induction events as [|event rest IH]; intros before_done kept sd; simpl.
  - intros [= <- <-]. split_and!; [done..|].
    split; [by left|]. intros [?|?%Exists_nil]; done.
  - destruct (decide _) as [Hs|Hs].
    { intros Hc. rewrite filter_cons_False by (by intros ?). by apply IH. }
    case_bool_decide as Hf; [done|].
    destruct (consume sid rest _) as [[k f] d] eqn:Hc.
    intros [= <- -> ->]. apply IH in Hc as (-> & Hall & Hdone).
    rewrite filter_cons_True by done.
    split_and!; [done | by constructor |].
    rewrite Hdone, Exists_cons. case_bool_decide; naive_solver.
Qed.

(** ** What [read] makes of the entries of a turn *)

Section Readings.

Context {W : Type}.
Variable run_id : string.
Implicit Types (env : Env W) (s : Reading).

Lemma read_app h1 h2 :
  read run_id (h1 ++ h2) = foldl (read_entry run_id) (read run_id h1) h2.
Proof. apply foldl_app. Qed.

Lemma read_events s rid (kept : list ExecEvent) :
  foldl (read_entry run_id) s (Sent <$> (P_EXEC_EVENT rid <$> kept))
  = {| awaited := awaited s; taken := taken s; shown := shown s ++ kept;
       corrected_plans := corrected_plans s |}.
Proof.
  revert s. induction kept as [|e kept IH]; intros s.
  - destruct s. simpl. by rewrite app_nil_r.
  - cbn [fmap list_fmap foldl]. rewrite IH. simpl. by rewrite <- app_assoc.
Qed.

Lemma read_decisions s sid dropped r d :
  awaited s = Some sid →
  Forall (λ x, accepts run_id sid x = None) dropped →
  accepts run_id sid r = Some d →
  foldl (read_entry run_id) s (StepDecisionRead <$> (dropped ++ [r]))
  = {| awaited := None; taken := taken s ++ [(sid, d)]; shown := shown s;
       corrected_plans := corrected_plans s |}.
Proof.
  intros Hs Hdropped Hr. rewrite fmap_app, foldl_app.
  assert (foldl (read_entry run_id) s (StepDecisionRead <$> dropped) = s)
    as ->.
  { induction Hdropped as [|x dropped Hx _ IH]; [done|].
    cbn [fmap list_fmap foldl]. cbn [read_entry]. by rewrite Hs, Hx. }
  simpl. by rewrite Hs, Hr.
Qed.

Lemma after_attempt_io tool_key user_context current_step retry c events kept
    (w : W) env :
  let env' :=
    after_attempt run_id tool_key user_context current_step retry c events
      kept w env in
  user_messages env' = user_messages env
  ∧ step_decisions env' = step_decisions env
  ∧ world env' = w
  ∧ io env'
    = io env
      ++ ExecutePlan tool_key (attempt_plan tool_key current_step c)
           (attempt_context user_context retry)
           (attempt_fail_target current_step retry c) events
         :: (Sent <$> (P_EXEC_EVENT run_id <$> kept)).
Proof.
  unfold after_attempt.
  match goal with |- context [foldl ?f ?e ?l] =>
    destruct (foldl_record_queues l e) as (Hw & Hu & Hd & Hio) end.
  cbn zeta. rewrite Hw, Hu, Hd, Hio. simpl.
  split_and!; [done..|]. by rewrite <- app_assoc.
Qed.

Lemma after_attempt_read tool_key user_context current_step retry c events
    kept (w : W) env :
  read run_id
    (io (after_attempt run_id tool_key user_context current_step retry c
           events kept w env))
  = let s := read run_id (io env) in
    {| awaited := awaited s; taken := taken s; shown := shown s ++ kept;
       corrected_plans := corrected_plans s |}.
Proof.
  destruct (after_attempt_io tool_key user_context current_step retry c
              events kept w env) as (_ & _ & _ & ->).
  rewrite read_app. cbn [foldl read_entry]. apply read_events.
Qed.

Lemma await_decision_read sid error env d env' :
  await_decision run_id sid
    (record (Sent (P_NEED_STEP_DECISION run_id (Some sid) error)) env)
  = Done (d, env') →
  read run_id (io env')
  = (let s := read run_id (io env) in
     {| awaited := None; taken := taken s ++ [(sid, d)]; shown := shown s;
        corrected_plans := corrected_plans s |})
  ∧ user_messages env' = user_messages env
  ∧ world env' = world env
  ∧ length (step_decisions env') < length (step_decisions env).
Proof.
  intros (dropped & r & rest & Hq & Hdropped & Hr & ->)%await_decision_done.
  unfold after_reading. cbn [io user_messages world step_decisions record].
  cbn [step_decisions record] in Hq. rewrite Hq, length_app.
  split_and!; [|done|done|simpl; lia].
  rewrite read_app.
  erewrite read_decisions; [|by rewrite read_app|done|done].
  rewrite read_app. done.
Qed.

End Readings.

(** ** What a decision changes of the controller state *)

Lemma clear_fail_on_fields sid c :
  let c' := clear_fail_on sid c in
  conversation c' = conversation c ∧ plan_dict c' = plan_dict c
  ∧ plan_model c' = plan_model c ∧ skipped_steps c' = skipped_steps c
  ∧ exec_trace c' = exec_trace c ∧ aborted c' = aborted c
  ∧ need_replan c' = need_replan c.
Proof. unfold clear_fail_on. by destruct (names_step _ _). Qed.

Lemma decided_fields sid error d c :
  let c' := decided sid error d c in
  exec_trace c' = exec_trace c
  ∧ plan_model c' = plan_model c
  ∧ (aborted c = true → aborted c' = true)
  ∧ (aborted c' = true → aborted c = true ∨ decision_is ABORT_RUN d = true)
  ∧ (decision_is ABORT_RUN d = true → aborted c' = true).
Proof.
  unfold decided. cbn zeta.
  destruct (decision_is ABORT_RUN d); [by split_and!; auto|].
  destruct (decision_is SKIP_STEP d).
  { destruct (clear_fail_on_fields sid
                (set_skipped_steps ({[sid]} ∪ skipped_steps c) c))
      as (_ & _ & Hp & _ & Ht & Ha & _).
    rewrite Hp, Ht, Ha. by split_and!; auto. }
  destruct (decision_is SKIP_DEPENDENTS d).
  { destruct (clear_fail_on_fields sid
                (set_skipped_steps (skip_with_dependents sid c) c))
      as (_ & _ & Hp & _ & Ht & Ha & _).
    rewrite Hp, Ht, Ha. by split_and!; auto. }
  destruct (decision_is REPLAN d); by split_and!; auto.
Qed.

(** ** The moves keep the state consistent with the history *)

Section Invariant.

Context {W : Type}.
Context `{!JsonSchema, !Planner W, !Executor W}.
Variables (run_id : string) (registry : Registry).
Variables (tool_key intent : string) (user_context : option UserContext).
Variable pre : Json.

#[local] Abbreviation walk_move := (walk_move run_id tool_key user_context).
#[local] Abbreviation run_move :=
  (run_move run_id registry tool_key intent user_context pre).
#[local] Abbreviation consistent := (consistent (W:=W) run_id).

Lemma walk_move_consistent n x y :
  walk_move x y → consistent n x → consistent n y.
Proof.
  intros Hmove (Hwait & Habort & Hshown & Hn & Hclean).
  destruct Hmove as
    [step retry c env events w kept fe sd Hexec Hcons
    |sid error d c env env' Hd
    |sid c env
    |sid c env];
    unfold consistent; cbn [fst snd] in *.
  - rewrite after_attempt_read. cbn zeta. cbn.
    split_and!; [done | | by rewrite Hshown | done |].
    + intros [sid Hsid]. apply Habort. exists sid.
      by rewrite after_attempt_read in Hsid.
    + apply Forall_app. split; [done|]. by eapply consume_kept.
  - apply await_decision_read in Hd as (Hread & _).
    rewrite Hread. cbn zeta. cbn [awaited shown corrected_plans].
    destruct (decided_fields sid error d c) as (Ht & _ & Ha & _ & Hab).
    assert (abort_decided run_id (io env') →
            aborted c = true ∨ decision_is ABORT_RUN d = true) as Hcases.
    { intros [sid' Hsid']. rewrite Hread in Hsid'. cbn in Hsid'.
      apply elem_of_app in Hsid' as [Hold|[= _ <-]%list_elem_of_singleton].
      - left. apply Habort. by exists sid'.
      - right. unfold decision_is. by apply bool_decide_eq_true. }
    destruct (decision_is RETRY_STEP d) eqn:Hretry.
    + split_and!; [done | | done..].
      intros [Hc|Hd]%Hcases; [done|].
      unfold decision_is in *. apply bool_decide_eq_true in Hd.
      apply bool_decide_eq_true in Hretry. by rewrite Hd in Hretry.
    + rewrite Ht. split_and!; [done | | done..].
      intros [Hc|Hd]%Hcases; auto.
  - done.
  - destruct (clear_fail_on_fields sid c) as (_ & _ & _ & _ & -> & -> & _).
    done.
Qed.

Lemma run_move_consistent n x y :
  run_move x y → consistent n x → consistent n y.
Proof.
  intros Hmove Hx.
  destruct Hmove as
    [x y Hwalk|c env|c env p conv env' Hplan Hvalid
    |c env new_plan conv env' Hplan].
  - by eapply walk_move_consistent.
  - done.
  - destruct Hx as (Hwait & Habort & Hshown & Hn & Hclean).
    apply planning_loop_quiet in Hplan as (Hread & _).
    unfold consistent, abort_decided in *. cbn [fst snd] in *.
    rewrite read_record, Hread. cbn.
    split_and!; [done..|]. constructor.
  - destruct Hx as (Hwait & Habort & Hshown & Hn & Hclean).
    apply planning_loop_quiet in Hplan as (Hread & _).
    unfold consistent, abort_decided in *. cbn [fst snd] in *.
    rewrite Hread. by destruct new_plan.
Qed.

Lemma run_moves_consistent n x y :
  rtc run_move x y → consistent n x → consistent n y.
Proof.
  induction 1 as [|x y z Hxy _ IH]; [done|].
  intros Hx. by eapply IH, run_move_consistent.
Qed.

End Invariant.

(** ** The run from its start to its result *)

Section Run.

Context {W : Type}.
Context `{!JsonSchema, !Planner W, !Executor W, !Archivist W}.
Variables (run_id : string) (registry : Registry).
Variables (tool_key intent : string) (user_context : option UserContext).
Implicit Types (env : Env W) (c : Ctl).

#[local] Abbreviation planning_loop' :=
  (planning_loop run_id registry tool_key intent).
#[local] Abbreviation planner_input' :=
  (planner_input registry tool_key intent).
#[local] Abbreviation correct_plan' :=
  (correct_plan run_id registry tool_key intent).
#[local] Abbreviation plan_phase' :=
  (plan_phase run_id registry tool_key intent user_context).
#[local] Abbreviation execute' :=
  (execute run_id registry tool_key intent user_context).
#[local] Abbreviation run_to_walk_end' :=
  (run_to_walk_end run_id registry tool_key intent user_context).
#[local] Abbreviation finalize' :=
  (finalize run_id registry tool_key intent user_context).
#[local] Abbreviation start_run' :=
  (start_run run_id registry tool_key intent user_context).
#[local] Abbreviation failed_result' := (failed_result run_id tool_key intent).
#[local] Abbreviation quiet := (quiet (W:=W) run_id).
#[local] Abbreviation corrected_by := (corrected_by (W:=W) run_id).
#[local] Abbreviation consistent := (consistent (W:=W) run_id).
#[local] Abbreviation planning_start :=
  (planning_start (W:=W) run_id tool_key user_context).
#[local] Abbreviation first_attempt := (first_attempt user_context).
#[local] Abbreviation execution_start :=
  (execution_start (W:=W) run_id user_context).

Lemma planning_start_quiet pre w env : quiet env (planning_start pre w env).
Proof.
  unfold planning_start.
  repeat (apply quiet_then_record; [|done]). apply quiet_world.
Qed.

(** A planner that gives no plan for [turns] turns makes the planning
    loop run out of turns. *)
Lemma planning_loop_no_plan report turns pre conv env :
  no_plan_for turns (λ conv, planner_input' pre conv None) conv (world env)
    (user_messages env) →
  ∃ conv' env',
    planning_loop' report turns pre conv env = Done ((None, conv'), env').
Proof.
  revert conv env. induction turns as [|turns IH]; intros conv env; simpl.
  - intros _. by eexists _, _.
  - unfold bind at 1, call_planner.
    destruct (planner_next _ _) as [[[role text fields|p|type]|e] w];
      [| done | | done].
    + destruct (user_messages env) as [|[m|e] rest] eqn:Hq; try done.
      intros Hno. unfold bind at 1, ask_user, bind, _emit,
        wait_for_user_message. simpl. rewrite Hq. simpl.
      by apply IH.
    + intros Hno. unfold bind at 1.
      destruct report; simpl; by apply IH.
Qed.

Lemma plan_phase_done env pre planned env1 :
  plan_phase' env = Done ((pre, planned), env1) →
  ∃ w,
    fetch_state tool_key user_context (world env) = (pre, w)
    ∧ match planned with
      | None =>
          quiet env env1
          ∧ ∃ conv,
              planning_loop' true 10 pre [] (planning_start pre w env)
              = Done ((None, conv), env1)
      | Some (p, errs, n, conv) =>
          n ≤ max_correction_retries
          ∧ errs = validate_plan p registry
          ∧ corrected_by n env env1
      end.
Proof.
  unfold plan_phase. unfold bind at 1, call_fetch_state.
  destruct (fetch_state _ _ _) as [pre0 w] eqn:Hfetch.
  unfold bind at 1, _emit at 1. unfold bind at 1, _emit at 1.
  fold (planning_start pre0 w env).
  intros Hrun. run_inv Hrun. destruct a as [first_plan conv].
  pose proof (planning_loop_quiet _ _ _ _ _ _ _ _ _ _ _ _ Hrun0) as Hq.
  pose proof (quiet_trans _ _ _ _ (planning_start_quiet pre0 w env) Hq) as Hq'.
  destruct first_plan as [p|].
  - run_inv Hrun. injection Hrun as <- <- <-. exists w. split; [done|].
    destruct a as [[[p' errs] n] conv'].
    unfold correct_plan in Hrun1.
    apply correction_loop_done in Hrun1 as (Hn & Herrs & Hc);
      [|unfold max_correction_retries; lia|done].
    split; [lia|]. split; [done|].
    replace n with (0 + (n - 0)) by lia.
    eapply corrected_by_trans; [by apply quiet_corrected_by|done].
  - injection Hrun as <- <- <-. exists w. eauto.
Qed.

Lemma finalize_done pre c env :
  ∃ post w payload reply w' h,
    fetch_state tool_key user_context (world env) = (post, w)
    ∧ store_run payload w = (reply, w')
    ∧ ap_status payload = RunStatus_value (final_status_of c)
    ∧ ap_exec_trace payload = exec_trace c ++ [summary_event_of c]
    ∧ ap_plan payload = plan_dict c
    ∧ ap_post_state payload = post
    ∧ (h = []
       ∨ ∃ e, reply = Raises e
              ∧ h = [Sent (P_DEBUG run_id (DbgArchivistSkipped e))])
    ∧ finalize' pre c env
      = Done
          ({| res_run_id := run_id; status := final_status_of c;
              res_tool_key := tool_key; res_intent := intent;
              registry_version := version registry;
              plan := Some (plan_model c);
              execution_trace := exec_trace c ++ [summary_event_of c];
              step_results := []; errors := []; pre_state := pre;
              post_state := post;
              archive_ref :=
                match reply with Returns ref => ref | Raises _ => None end |},
           {| world := w'; user_messages := user_messages env;
              step_decisions := step_decisions env;
              io := io env
                    ++ FetchState tool_key user_context post
                       :: Sent (P_EXEC_EVENT run_id (summary_event_of c))
                       :: StoreRun payload reply :: h |}).
Proof.
  unfold finalize. unfold bind at 1, call_fetch_state.
  destruct (fetch_state _ _ _) as [post w] eqn:Hfetch.
  unfold bind at 1, _emit at 1. unfold bind at 1, call_store_run.
  cbn [world with_world record].
  match goal with |- context [store_run ?p w] => set (payload := p) end.
  destruct (store_run payload w) as [reply w'] eqn:Hstore.
  destruct reply as [ref|e].
  - exists post, w, payload, (Returns ref), w', [].
    split_and!; [done..|by left|].
    unfold bind, ret, record, with_world. simpl.
    by rewrite <- !app_assoc.
  - exists post, w, payload, (Raises e), w',
      [Sent (P_DEBUG run_id (DbgArchivistSkipped e))].
    split_and!; [done..|right; by exists e|].
    unfold bind, ret, _emit, record, with_world. simpl.
    by rewrite <- !app_assoc.
Qed.

Lemma start_run_done env r env' :
  start_run' env = Done (r, env') ↔
  ∃ pre x env1,
    run_to_walk_end' env = Done ((pre, x), env1)
    ∧ match x with
      | inl failed => r = failed ∧ env' = env1
      | inr c => finalize' pre c env1 = Done (r, env')
      end.
Proof.
  unfold start_run. rewrite bind_done. split.
  - intros ([pre x] & env1 & Hrun & Hend). exists pre, x, env1.
    split; [done|]. destruct x; [|done]. by injection Hend as <- <-.
  - intros (pre & x & env1 & Hrun & Hend). exists (pre, x), env1.
    split; [done|]. destruct x; [|done]. by destruct Hend as [-> ->].
Qed.

Lemma run_to_walk_end_done env pre x env1 :
  run_to_walk_end' env = Done ((pre, x), env1) ↔
  ∃ planned env0,
    plan_phase' env = Done ((pre, planned), env0)
    ∧ match planned with
      | None => x = inl (failed_result' pre [planning_timeout]) ∧ env1 = env0
      | Some (p, errs, n, conv) =>
          match errs with
          | _ :: _ =>
              x = inl (failed_result' pre (envelope_of <$> errs))
              ∧ env1 = env0
          | [] =>
              ∃ c, execute' pre (first_attempt p conv) (execution_start p env0)
                   = Done (c, env1)
                   ∧ x = inr c
          end
      end.
Proof.
  unfold run_to_walk_end. rewrite bind_done. split.
  - intros ([pre0 planned] & env0 & Hplan & Hrest).
    destruct planned as [[[[p errs] n] conv]|].
    + destruct errs as [|err errs].
      * unfold bind at 1, _emit at 1 in Hrest.
        unfold bind at 1, _emit at 1 in Hrest.
        fold (execution_start p env0) in Hrest.
        fold (first_attempt p conv) in Hrest.
        run_inv Hrest. injection Hrest as <- <- <-.
        exists (Some (p, [], n, conv)), env0. eauto.
      * injection Hrest as <- <- <-.
        exists (Some (p, err :: errs, n, conv)), env0. eauto.
    + injection Hrest as <- <- <-. exists None, env0. eauto.
  - intros (planned & env0 & Hplan & Hrest). exists (pre, planned), env0.
    split; [done|].
    destruct planned as [[[[p errs] n] conv]|].
    + destruct errs as [|err errs].
      * destruct Hrest as (c & Hexec & ->).
        unfold bind at 1, _emit at 1. unfold bind at 1, _emit at 1.
        fold (execution_start p env0). fold (first_attempt p conv).
        unfold bind. by rewrite Hexec.
      * by destruct Hrest as [-> ->].
    + by destruct Hrest as [-> ->].
Qed.

(** What the history of a run that reached the end of the walk, or
    failed before, says. *)
Lemma run_to_walk_end_history env pre x env1 :
  io env = [] →
  run_to_walk_end' env = Done ((pre, x), env1) →
  match x with
  | inl failed =>
      taken (read run_id (io env1)) = []
      ∧ corrected_plans (read run_id (io env1)) ≤ max_correction_retries
  | inr c => ∃ n, n ≤ max_correction_retries ∧ consistent n (c, env1)
  end.
Proof.
  intros Hio (planned & env0 & Hplan & Hrest)%run_to_walk_end_done.
  apply plan_phase_done in Hplan as (w & _ & Hplan).
  assert (read run_id (io env) = nothing_read) as Hstart by by rewrite Hio.
  destruct planned as [[[[p errs] n] conv]|].
  - destruct Hplan as (Hn & Herrs & (Hw & Ht & Hs & Hc & _)).
    rewrite Hstart in Hw, Ht, Hs, Hc. simpl in Hw, Ht, Hs, Hc.
    destruct errs as [|err errs].
    + destruct Hrest as (c & Hexec & ->). exists n. split; [done|].
      unfold execute in Hexec. apply run_attempts_moves in Hexec.
      eapply run_moves_consistent; [done|].
      unfold consistent, abort_decided, execution_start.
      cbn [fst snd]. rewrite !read_record. cbn.
      rewrite Hw, Ht, Hc. split_and!; [done| |done..].
      intros [sid Hsid]. by apply elem_of_nil in Hsid.
    + destruct Hrest as [-> ->]. rewrite Ht, Hc. done.
  - destruct Hrest as [-> ->]. destruct Hplan as [(Hr & _) _].
    rewrite Hr, Hstart. simpl. split; [done|]. lia.
Qed.

End Run.

(** ** Plans whose declared order follows the dependencies *)

Lemma declared_in_order_split seen passed s rest d :
  declared_in_order seen (passed ++ s :: rest) = true →
  d ∈ depends_on s → d ∈ seen ++ step_ids passed.
Proof.
  revert seen. induction passed as [|p passed IH]; intros seen; simpl.
  - intros [Hdeps _]%andb_true_iff Hd. rewrite app_nil_r.
    rewrite forallb_forall in Hdeps.
    eapply bool_decide_eq_true_1, Hdeps. by apply list_elem_of_In.
  - intros [_ Hrest]%andb_true_iff Hd.
    specialize (IH _ Hrest Hd). by rewrite <- app_assoc in IH.
Qed.

Lemma dependencies_first_split passed s rest d :
  dependencies_first (passed ++ s :: rest) →
  d ∈ depends_on s → d ∈ step_ids passed.
Proof. intros Hall Hd. by apply (declared_in_order_split [] _ _ _ _ Hall). Qed.

Lemma distinct_ids_NoDup steps : distinct_ids steps → NoDup (step_ids steps).
Proof. apply bool_decide_eq_true. Qed.

Lemma distinct_ids_split passed s rest :
  distinct_ids (passed ++ s :: rest) →
  step_id s ∉ step_ids passed
  ∧ step_id s ∉ step_ids rest
  ∧ ∀ y, y ∈ step_ids passed → y ∉ step_ids rest.
Proof.
  intros Hnd%distinct_ids_NoDup. unfold step_ids in *.
  rewrite fmap_app, fmap_cons in Hnd.
  apply NoDup_app in Hnd as (_ & Hdisj & [Hs _]%NoDup_cons).
  split_and!; [|done|].
  - intros Hin. apply (Hdisj _ Hin). by left.
  - intros y Hy Hin. apply (Hdisj _ Hy). by right.
Qed.

(** A step that lists [s] is declared after [s]. *)
Lemma dependents_are_later passed s rest t :
  distinct_ids (passed ++ s :: rest) →
  dependencies_first (passed ++ s :: rest) →
  t ∈ passed ++ s :: rest → step_id s ∈ depends_on t → t ∈ rest.
Proof.
  intros Hnd Hfirst Ht Hdep.
  destruct (distinct_ids_split _ _ _ Hnd) as (Hs & _ & _).
  apply elem_of_app in Ht as [Ht|Ht].
  - apply list_elem_of_split in Ht as (p1 & p2 & ->).
    rewrite <- app_assoc in Hfirst. simpl in Hfirst.
    pose proof (dependencies_first_split _ _ _ _ Hfirst Hdep) as Hin.
    destruct Hs. unfold step_ids in *. rewrite fmap_app.
    apply elem_of_app. by left.
  - apply elem_of_cons in Ht as [->|Ht]; [|done].
    destruct Hs. by eapply dependencies_first_split.
Qed.

(** Two steps of a plan with distinct identifiers that bear the same
    identifier are the same step. *)
Lemma distinct_ids_same steps s t :
  distinct_ids steps → s ∈ steps → t ∈ steps → step_id s = step_id t → s = t.
Proof.
  intros Hnd%distinct_ids_NoDup Hs Ht Heq.
  apply list_elem_of_lookup in Hs as [i Hi].
  apply list_elem_of_lookup in Ht as [j Hj].
  assert (i = j) as ->.
  { eapply NoDup_lookup; [done| |]; unfold step_ids;
      rewrite list_lookup_fmap; [by rewrite Hi|by rewrite Hj, Heq]. }
  congruence.
Qed.

(** What depends on [x] is [x] or is declared after it. *)
Lemma affected_is_later before x after y :
  distinct_ids (before ++ x :: after) →
  dependencies_first (before ++ x :: after) →
  affected (before ++ x :: after) (step_id x) y →
  y ∉ step_ids before.
Proof.
  intros Hnd Hfirst Haff.
  destruct (distinct_ids_split _ _ _ Hnd) as (Hx & _ & Hdisj).
  induction Haff as [|s d Hs Hd _ IH]; [done|].
  intros Hin. apply IH.
  apply elem_of_app in Hs as [Hs|Hs].
  - apply list_elem_of_split in Hs as (p1 & p2 & ->).
    rewrite <- app_assoc in Hfirst. simpl in Hfirst.
    pose proof (dependencies_first_split _ _ _ _ Hfirst Hd) as Hd'.
    unfold step_ids. rewrite fmap_app. apply elem_of_app. by left.
  - destruct (Hdisj _ Hin).
    apply elem_of_cons in Hs as [->|Hs].
    + done.
    + by apply list_elem_of_fmap_2.
Qed.

Lemma affected_is_declared steps x y :
  affected steps x y → y = x ∨ y ∈ step_ids steps.
Proof.
  destruct 1 as [|s d Hs _ _]; [by left|]. right.
  by apply list_elem_of_fmap_2.
Qed.

(** ** The skip-set along the walk *)

Section Cascade.

Context {W : Type}.
Context `{!Executor W}.
Variables (run_id tool_key : string) (user_context : option UserContext).
Implicit Types (env : Env W) (c : Ctl).

#[local] Abbreviation exec_attempts' :=
  (exec_attempts run_id tool_key user_context).
#[local] Abbreviation run_step' := (run_step run_id tool_key user_context).
#[local] Abbreviation walk' := (walk run_id tool_key user_context).

Lemma skip_with_dependents_elem sid c y :
  y ∈ skip_with_dependents sid c ↔
  y = sid ∨ y ∈ skipped_steps c
  ∨ ∃ s, s ∈ steps (plan_model c) ∧ sid ∈ depends_on s ∧ y = step_id s.
Proof.
  unfold skip_with_dependents.
  assert (∀ l (acc : gset string),
            y ∈ foldl (λ acc step,
                         if decide (sid ∈ depends_on step)
                         then {[step_id step]} ∪ acc else acc) acc l
            ↔ y ∈ acc ∨ ∃ s, s ∈ l ∧ sid ∈ depends_on s ∧ y = step_id s)
    as Hfold.
  { induction l as [|s l IH]; intros acc; simpl.
    - split; [by left|]. intros [?|(s & Hs & _)]; [done|].
      by apply elem_of_nil in Hs.
    - rewrite IH. split.
      + intros [Hacc|(t & Ht & Hdep & ->)].
        * case_decide; [|by left].
          apply elem_of_union in Hacc as [->%elem_of_singleton|?];
            [|by left].
          right. exists s. split_and!; [by left|done..].
        * right. exists t. split_and!; [by right|done..].
      + intros [Hacc|(t & Ht & Hdep & ->)].
        * left. case_decide; set_solver.
        * apply elem_of_cons in Ht as [->|Ht].
          -- left. rewrite decide_True by done. set_solver.
          -- right. by exists t. }
  rewrite Hfold. set_solver.
Qed.

Lemma decided_skipped sid error d c :
  skipped_steps c ⊆ skipped_steps (decided sid error d c)
  ∧ skipped_steps (decided sid error d c) ⊆ skip_with_dependents sid c.
Proof.
  assert (skipped_steps c ⊆ skip_with_dependents sid c) as Hsub.
  { intros y Hy. apply skip_with_dependents_elem. auto. }
  assert ({[sid]} ∪ skipped_steps c ⊆ skip_with_dependents sid c) as Hsub'.
  { intros y Hy. apply skip_with_dependents_elem. set_solver. }
  unfold decided.
  destruct (decision_is ABORT_RUN d); [done|].
  destruct (decision_is SKIP_STEP d).
  { destruct (clear_fail_on_fields sid
                (set_skipped_steps ({[sid]} ∪ skipped_steps c) c))
      as (_ & _ & _ & -> & _). simpl. split; [set_solver|done]. }
  destruct (decision_is SKIP_DEPENDENTS d).
  { destruct (clear_fail_on_fields sid
                (set_skipped_steps (skip_with_dependents sid c) c))
      as (_ & _ & _ & -> & _). done. }
  destruct (decision_is REPLAN d); done.
Qed.

(** The attempts at a step keep the plan and add to the skip-set the
    step and the steps that list it, at most. *)
Lemma exec_attempts_skips fuel current_step retry c env c' b env' :
  exec_attempts' fuel current_step retry c env = Done ((c', b), env') →
  plan_model c' = plan_model c
  ∧ skipped_steps c ⊆ skipped_steps c'
  ∧ skipped_steps c' ⊆ skip_with_dependents (step_id current_step) c.
Proof.
  revert retry c env. induction fuel as [|fuel IH]; intros retry c env; [done|].
  destruct (exec_attempts_turn run_id tool_key user_context fuel
              current_step retry c env)
    as (events & w & kept & fe & sd & _ & _ & ->).
  assert (skipped_steps c ⊆ skip_with_dependents (step_id current_step) c)
    as Hsub.
  { intros y Hy. apply skip_with_dependents_elem. auto. }
  destruct fe as [fe|]; [|by intros [= <- <- <-]].
  destruct (await_decision _ _ _) as [[d env3]| | |]; try done.
  destruct (decision_is RETRY_STEP d).
  - intros Hrun. by apply IH in Hrun.
  - intros [= <- <- <-].
    destruct (decided_fields (step_id current_step) (ev_error fe) d
                (set_exec_trace (exec_trace c ++ kept) c))
      as (_ & -> & _).
    destruct (decided_skipped (step_id current_step) (ev_error fe) d
                (set_exec_trace (exec_trace c ++ kept) c)) as [H1 H2].
    done.
Qed.

(** The walk from a point behind the failed step [x]: when it runs to
    the end, every step that depends on [x] is in the skip-set, and what
    it added to the skip-set is among the steps it walked over. *)
Lemma walk_cascade x passed rest c env c' env' :
  steps (plan_model c) = passed ++ rest →
  distinct_ids (steps (plan_model c)) →
  dependencies_first (steps (plan_model c)) →
  x ∈ step_ids passed →
  (∀ y, affected (steps (plan_model c)) x y →
        y ∈ step_ids passed → y ∈ skipped_steps c) →
  walk' rest c env = Done (c', env') →
  aborted c' = false → need_replan c' = false →
  plan_model c' = plan_model c
  ∧ (∀ y, affected (steps (plan_model c)) x y → y ∈ skipped_steps c')
  ∧ (∀ y, y ∈ skipped_steps c' → y ∈ skipped_steps c ∨ y ∈ step_ids rest).
Proof.
  revert passed c env.
  induction rest as [|s rest IH]; intros passed c env Hall Hnd Hfirst Hx Hj.
  - intros [= <- <-] _ _. rewrite app_nil_r in Hall.
    split_and!; [done| |by left].
    intros y Hy. apply Hj; [done|].
    destruct (affected_is_declared _ _ _ Hy) as [->|Hin]; [done|].
    by rewrite Hall in Hin.
  - assert (steps (plan_model c) = (passed ++ [s]) ++ rest) as Hall'.
    { by rewrite <- app_assoc. }
    assert (x ∈ step_ids (passed ++ [s])) as Hx'.
    { unfold step_ids in *. rewrite fmap_app. apply elem_of_app. by left. }
    assert (∀ y, y ∈ step_ids (passed ++ [s]) →
                 y ∈ step_ids passed ∨ y = step_id s) as Hids.
    { intros y. unfold step_ids. rewrite fmap_app, elem_of_app. simpl.
      rewrite list_elem_of_singleton. done. }
    assert (∀ y, y ∈ step_ids rest → y ∈ step_ids (s :: rest)) as Hrest.
    { intros y Hy. by right. }
    rewrite walk_cons. cbn zeta.
    destruct (aborted c) eqn:Hab; [by intros [= <- <-] ?; congruence|].
    destruct (decide (step_id s ∈ skipped_steps c)) as [Hin|Hout].
    { intros Hwalk Hab' Hre'.
      destruct (IH (passed ++ [s]) c env Hall' Hnd Hfirst Hx') as (? & ? & Hk);
        [|done..|].
      - intros y Hy [?| ->]%Hids; auto.
      - split_and!; [done..|]. intros y [?|?]%Hk; auto. }
    destruct (existsb _ _) eqn:Hdeps.
    { intros Hwalk Hab' Hre'.
      destruct (IH (passed ++ [s])
                  (set_skipped_steps ({[step_id s]} ∪ skipped_steps c) c) env
                  Hall' Hnd Hfirst Hx') as (? & ? & Hk); [|done..|].
      - intros y Hy [?| ->]%Hids; simpl; [|set_solver].
        apply elem_of_union. right. by apply Hj.
      - split_and!; [done..|]. intros y [Hy|?]%Hk; [|by auto].
        simpl in Hy. apply elem_of_union in Hy as [->%elem_of_singleton|?];
          [right; by left|by left]. }
    destruct (run_step' s c env) as [[[c1 b] env1]| | |] eqn:Hstep; try done.
    unfold run_step in Hstep.
    apply exec_attempts_skips in Hstep as (Hplan & Hmore & Hless).
    destruct (aborted c1 || need_replan c1) eqn:Hflags.
    { intros [= <- <-] Hab' Hre'. by rewrite Hab', Hre' in Hflags. }
    assert (∀ c2 : Ctl,
              plan_model c2 = plan_model c1 →
              skipped_steps c2 = skipped_steps c1 →
              walk' rest c2 env1 = Done (c', env') →
              aborted c' = false → need_replan c' = false →
              plan_model c' = plan_model c
              ∧ (∀ y, affected (steps (plan_model c)) x y →
                      y ∈ skipped_steps c')
              ∧ (∀ y, y ∈ skipped_steps c' →
                      y ∈ skipped_steps c ∨ y ∈ step_ids (s :: rest)))
      as Hnext.
    { intros c2 Hp2 Hs2 Hwalk Hab' Hre'.
      assert (plan_model c2 = plan_model c) as Hp by congruence.
      pose proof (IH (passed ++ [s]) c2 env1) as IH2. rewrite Hp in IH2.
      destruct IH2 as (? & Haff & Hk); [done..| |done|done|done|].
      - intros y Hy [Hpassed| ->]%Hids.
        + rewrite Hs2. by apply Hmore, Hj.
        + exfalso.
          destruct (distinct_ids_split passed s rest) as (Hs & _ & _);
            [by rewrite <- Hall|].
          inversion Hy as [Heq|s0 d Hs0 Hd Hdaff Heq].
          { by rewrite Heq in Hx. }
          assert (s0 = s) as ->.
          { apply (distinct_ids_same (steps (plan_model c))); [done..| |done].
            rewrite Hall. apply elem_of_app. right. by left. }
          assert (d ∈ skipped_steps c) as Hskipped.
          { apply Hj; [done|]. eapply dependencies_first_split; [|done].
            by rewrite <- Hall. }
          apply not_true_iff_false in Hdeps. destruct Hdeps.
          apply existsb_exists. exists d. split; [by apply list_elem_of_In|].
          by apply bool_decide_eq_true.
      - split_and!; [congruence|done|].
        intros y [Hy|?]%Hk; [|by auto]. rewrite Hs2 in Hy.
        apply Hless, skip_with_dependents_elem in Hy
          as [->|[?|(t & Ht & Hdep & ->)]]; [right; by left|by left|].
        right. right. apply list_elem_of_fmap_2.
        eapply dependents_are_later; [| |by rewrite <- Hall|done];
          by rewrite <- Hall. }
    destruct (decide (step_id s ∈ skipped_steps c1)); [by apply Hnext|].
    destruct b; [|by apply Hnext].
    destruct (clear_fail_on_fields (step_id s) c1)
      as (_ & _ & Hp & Hs & _).
    by apply Hnext.
Qed.

End Cascade.

(** * The specification's claims *)

Lemma existsb_Exists {A} (f : A → bool) (l : list A) :
  existsb f l = true ↔ Exists (λ x, f x = true) l.
Proof.
  induction l as [|x l IH]; simpl.
  - split; [done|]. by intros ?%Exists_nil.
  - rewrite orb_true_iff, Exists_cons, IH. done.
Qed.

Lemma final_status_cases c :
  final_status_of c =
    if aborted c then CANCELLED
    else if bool_decide
              (skipped_steps c ≠ ∅
               ∨ Exists (λ evt, ev_type evt = STEP_FAILED) (exec_trace c))
    then PARTIAL else SUCCESS.
Proof.
  unfold final_status_of. destruct (aborted c); [done|].
  destruct (existsb _ _) eqn:Hex.
  - apply existsb_Exists in Hex. rewrite orb_true_r.
    rewrite bool_decide_eq_true_2; [done|]. right.
    eapply Exists_impl; [done|]. intros evt. by apply bool_decide_eq_true.
  - rewrite orb_false_r.
    assert (¬ Exists (λ evt, ev_type evt = STEP_FAILED) (exec_trace c))
      as Hnone.
    { intros Hex'. apply not_true_iff_false in Hex. destruct Hex.
      apply existsb_Exists. eapply Exists_impl; [done|].
      intros evt. by apply bool_decide_eq_true. }
    do 2 case_bool_decide; naive_solver.
Qed.

Lemma get_pop {V} k (d : pydict V) : PyDict.get k (PyDict.pop k d) = None.
Proof.
  unfold PyDict.pop, PyDict.pydict in *.
  induction d as [|[k' v] d IH]; [done|].
  destruct (decide (k' = k)) as [->|Hk].
  - by rewrite filter_cons_False by (by intros ?).
  - rewrite filter_cons_True by done. simpl.
    by rewrite decide_False by done.
Qed.

Lemma get_pop_ne {V} k k' (d : pydict V) :
  k ≠ k' → PyDict.get k (PyDict.pop k' d) = PyDict.get k d.
Proof.
  intros Hne. unfold PyDict.pop, PyDict.pydict in *.
  induction d as [|[k0 v] d IH]; [done|].
  destruct (decide (k0 = k')) as [->|Hk].
  - rewrite filter_cons_False by (by intros ?). simpl.
    by rewrite decide_False by done.
  - rewrite filter_cons_True by done. simpl. by rewrite IH.
Qed.

Section Claims.

Context {W : Type}.
Context `{!JsonSchema, !Planner W, !Executor W, !Archivist W}.
Variables (run_id : string) (registry : Registry).
Variables (tool_key intent : string) (user_context : option UserContext).
Implicit Types (env : Env W) (c : Ctl).

#[local] Abbreviation planning_loop' :=
  (planning_loop run_id registry tool_key intent).
#[local] Abbreviation planner_input' :=
  (planner_input registry tool_key intent).
#[local] Abbreviation plan_phase' :=
  (plan_phase run_id registry tool_key intent user_context).
#[local] Abbreviation walk' := (walk run_id tool_key user_context).
#[local] Abbreviation run_attempts' :=
  (run_attempts run_id registry tool_key intent user_context).
#[local] Abbreviation run_to_walk_end' :=
  (run_to_walk_end run_id registry tool_key intent user_context).
#[local] Abbreviation finalize' :=
  (finalize run_id registry tool_key intent user_context).
#[local] Abbreviation start_run' :=
  (start_run run_id registry tool_key intent user_context).
#[local] Abbreviation failed_result' := (failed_result run_id tool_key intent).
#[local] Abbreviation exec_attempts' :=
  (exec_attempts run_id tool_key user_context).
#[local] Abbreviation attempt_context := (attempt_context user_context).
#[local] Abbreviation attempt_plan := (attempt_plan tool_key).
#[local] Abbreviation after_attempt :=
  (after_attempt (W:=W) run_id tool_key user_context).

(** C1: in every run in which a plan was accepted and the step walk
    ended in the controller state [c], [start_run] returns, the executor
    and the event sender being taken not to raise, and the status it
    returns is [CANCELLED] if the aborted flag of [c] is set, otherwise
    [PARTIAL] if the skip-set of [c] is not empty or its execution trace
    holds a [STEP_FAILED] event, otherwise [SUCCESS]. *)
Theorem terminal_status_formula env pre c env1 :
  run_to_walk_end' env = Done ((pre, inr c), env1) →
  ∃ r env2,
    start_run' env = Done (r, env2)
    ∧ execution_trace r = exec_trace c ++ [summary_event_of c]
    ∧ status r =
        if aborted c then CANCELLED
        else if bool_decide
                  (skipped_steps c ≠ ∅
                   ∨ Exists (λ evt, ev_type evt = STEP_FAILED) (exec_trace c))
        then PARTIAL else SUCCESS.
Proof.
  intros Hwalk.
  destruct (finalize_done run_id registry tool_key intent user_context
              pre c env1)
    as (post & w & payload & reply & w' & h & _ & _ & _ & _ & _ & _ & _ & Hfin).
  eexists _, _. split.
  - apply start_run_done. exists pre, (inr c), env1. split; [done|].
    exact Hfin.
  - split; [done|]. apply final_status_cases.
Qed.









End Claims.


(** ** The claims on the scenarios *)

Lemma tc_last_step {A} (R : relation A) x z : tc R x z → ∃ y, R y z.
Proof. induction 1 as [x y Hxy|x y z _ _ IH]; eauto. Qed.

(** The four ways in which a walk ends: nothing failed; the run was
    aborted; a step was skipped; a step failed and was retried, no step
    being skipped. *)
Lemma terminal_status_formula_witness :
  (∃ r env2, Scenario.run None [] = Done (r, env2) ∧ status r = SUCCESS)
  ∧ (∃ r env2,
       Scenario.run (Scenario.fail_on "S2")
         [Mock.decision Scenario.run_id "S2" ABORT_RUN]
       = Done (r, env2)
       ∧ status r = CANCELLED)
  ∧ (∃ r env2,
       Scenario.run (Scenario.fail_on "S2")
         [Mock.decision Scenario.run_id "S2" SKIP_DEPENDENTS]
       = Done (r, env2)
       ∧ status r = PARTIAL)
  ∧ (∃ r env2,
       Scenario.run (Scenario.fail_on "S2")
         [Mock.decision Scenario.run_id "S2" RETRY_STEP]
       = Done (r, env2)
       ∧ status r = PARTIAL).
Proof.
  split_and!.
  - edestruct (terminal_status_formula (H:=Mock.lenient)
                 (Planner0:=Mock.planner) (Executor0:=Mock.executor)
                 (Archivist0:=Mock.archivist) Scenario.run_id Mock.registry
                 Scenario.tool_key Scenario.intent None
                 (Mock.env [Mock.user_reply] []))
      as (r & env2 & Hrun & _ & Hstatus).
    { vm_compute. reflexivity. }
    exists r, env2. split; [exact Hrun|]. rewrite Hstatus. reflexivity.
  - edestruct (terminal_status_formula (H:=Mock.lenient)
                 (Planner0:=Mock.planner) (Executor0:=Mock.executor)
                 (Archivist0:=Mock.archivist) Scenario.run_id Mock.registry
                 Scenario.tool_key Scenario.intent (Scenario.fail_on "S2")
                 (Mock.env [Mock.user_reply]
                    [Mock.decision Scenario.run_id "S2" ABORT_RUN]))
      as (r & env2 & Hrun & _ & Hstatus).
    { vm_compute. reflexivity. }
    exists r, env2. split; [exact Hrun|]. rewrite Hstatus. reflexivity.
  - edestruct (terminal_status_formula (H:=Mock.lenient)
                 (Planner0:=Mock.planner) (Executor0:=Mock.executor)
                 (Archivist0:=Mock.archivist) Scenario.run_id Mock.registry
                 Scenario.tool_key Scenario.intent (Scenario.fail_on "S2")
                 (Mock.env [Mock.user_reply]
                    [Mock.decision Scenario.run_id "S2" SKIP_DEPENDENTS]))
      as (r & env2 & Hrun & _ & Hstatus).
    { vm_compute. reflexivity. }
    exists r, env2. split; [exact Hrun|]. rewrite Hstatus.
    vm_compute. reflexivity.
  - edestruct (terminal_status_formula (H:=Mock.lenient)
                 (Planner0:=Mock.planner) (Executor0:=Mock.executor)
                 (Archivist0:=Mock.archivist) Scenario.run_id Mock.registry
                 Scenario.tool_key Scenario.intent (Scenario.fail_on "S2")
                 (Mock.env [Mock.user_reply]
                    [Mock.decision Scenario.run_id "S2" RETRY_STEP]))
      as (r & env2 & Hrun & _ & Hstatus).
    { vm_compute. reflexivity. }
    exists r, env2. split; [exact Hrun|]. rewrite Hstatus.
    vm_compute. reflexivity.
Defined.


(** The executor calls of that run: the retry of [S1] is passed the
    context without [fail_on_step_id] and no fault target; the attempts
    at [S2] and [S3] are passed the whole context again. *)
Lemma retry_context :
  Scenario.executor_calls
    (Scenario.run (Scenario.fail_on "S1")
       [Mock.decision Scenario.run_id "S1" RETRY_STEP])
  = [("mock-plan_step_S1", Scenario.fail_on "S1", Some "S1");
     ("mock-plan_step_S1", Some [("demo_user", JBool true)], None);
     ("mock-plan_step_S2", Scenario.fail_on "S1", None);
     ("mock-plan_step_S3", Scenario.fail_on "S1", None)].
Proof. by vm_compute. Qed.












